(** * paygate: transfer orchestration and the micro-deposit cursor

    A shallow embedding of
      - internal/depository/verification/microdeposit/cursor.go
      - internal/transfers/transfers.go
    together with the properties the design document states about them.

    Conventions.  A Go [string] is a [string]; a Go [error] is its message,
    with [None] for [nil]; a Go [time.Time] is an instant counted in [Z];
    a Go [int] is a [Z].  A Go function returning [(T, error)] returns a
    pair when the source uses both components and a sum otherwise.
    [fmt.Errorf] and [fmt.Sprintf] only ever concatenate here, written
    [+:+]. *)

From stdpp Require Import base list strings gmap sorting.
From Stdlib Require Import ZArith Lia.

#[local] Set Warnings "-clear-no-such-hyp".

Definition error : Type := string.

(* ===================================================================== *)
(** * Package microdeposit: the cursor                                    *)
(* ===================================================================== *)

Module microdeposit.

(** One row of the [micro_deposits] table, with the columns the query of
    [Cursor.Next] names: five selected, two only tested for NULL. *)
Record row : Type := Row {
  depository_id : string;
  user_id : string;
  amount : string;
  file_id : string;
  created_at : Z;
  deleted_at : option Z;
  merged_filename : option string
}.

(** What the database driver may do wrong.  [Prepare] and [Query] can fail,
    [rows.Scan] can fail on a row, and the iteration can stop early after
    delivering some rows, in which case [rows.Err()] is not nil. *)
Record driver : Type := Driver {
  prepare_fault : option error;
  query_fault : option error;
  scan_fault : row → option error;
  rows_fault : option (nat * error)
}.

Definition healthy : driver :=
  {| prepare_fault := None; query_fault := None;
     scan_fault := λ _, None; rows_fault := None |}.

(** [SQLRepo] is the handle [Cursor.Repo] points to: the table as it stands
    when [Next] runs, and the driver. *)
Record SQLRepo : Type := Repo {
  micro_deposits : list row;
  db : driver
}.

(** The [where] clause:
    [deleted_at is null and merged_filename is null and created_at > ?]. *)
Definition selected (newerThan : Z) (r : row) : Prop :=
  deleted_at r = None ∧ merged_filename r = None ∧ (newerThan < created_at r)%Z.

Global Instance selected_dec newerThan r : Decision (selected newerThan r).
Proof. unfold selected. apply _. Defined.

(** [order by created_at asc] compares creation instants only. *)
Definition created_le (a b : row) : Prop := (created_at a ≤ created_at b)%Z.

Global Instance created_le_dec : RelDecision created_le.
Proof. intros a b. unfold created_le. apply _. Defined.

Global Instance created_le_trans : Transitive created_le.
Proof. intros a b c. unfold created_le. lia. Qed.

Global Instance created_le_total : Total created_le.
Proof. intros a b. unfold created_le. lia. Qed.

(** SQL leaves the order of rows with equal [created_at] to the engine.  An
    engine is any function that returns its input rearranged in ascending
    order of [created_at]. *)
Class OrderBy (order_by : list row → list row) : Prop := {
  order_by_perm : ∀ l, order_by l ≡ₚ l;
  order_by_sorted : ∀ l, Sorted created_le (order_by l)
}.

(** One such engine, used to run the model. *)
Definition sort_by_created_at : list row → list row := merge_sort created_le.

Global Instance sort_by_created_at_order : OrderBy sort_by_created_at.
Proof.
  split; intros l; unfold sort_by_created_at.
  - apply merge_sort_Permutation.
  - apply (Sorted_merge_sort created_le).
Qed.

Section Cursor.

(** [model.Amount] and its parser [FromString] live in package model. *)
Variable Amount : Type.
Variable FromString : string → Amount + error.

Variable order_by : list row → list row.

Record UploadableCredit : Type := Credit {
  DepositoryID : string;
  UserID : string;
  Amount_ : Amount;
  FileID : string;
  CreatedAt : Z
}.

(** The cursor; its [Repo] pointer is the [SQLRepo] passed to [Next]. *)
Record Cursor : Type := MkCursor {
  BatchSize : Z;
  newerThan : Z
}.

(** The rows the statement selects: filtered, ordered, cut at [limit ?].
    A negative limit is engine specific (an error, or no limit at all);
    here it selects nothing and the properties below ask for
    [0 ≤ BatchSize]. *)
Definition select_rows (tbl : list row) (newer : Z) (limit : Z) : list row :=
  take (Z.to_nat limit) (order_by (filter (selected newer) tbl)).

(** [rows]: what the iteration delivers and what [rows.Err()] says. *)
Definition Query (r : SQLRepo) (newer : Z) (limit : Z)
  : (list row * option error) + error :=
  match query_fault (db r) with
  | Some e => inr e
  | None =>
      let rs := select_rows (micro_deposits r) newer limit in
      match rows_fault (db r) with
      | Some (n, e) => inl (take n rs, Some e)
      | None => inl (rs, None)
      end
  end.

(** The body of [for rows.Next() { ... }]: [max] and [microDeposits] are
    the loop's two variables; an error leaves the loop and the function. *)
Fixpoint scan_all (d : driver) (rs : list row) (max : Z)
    (microDeposits : list UploadableCredit)
  : (Z * list UploadableCredit) + error :=
  match rs with
  | [] => inl (max, microDeposits)
  | r :: rs' =>
      match scan_fault d r with
      | Some e => inr ("transferCursor.Next: scan: " +:+ e)
      | None =>
          match FromString (amount r) with
          | inr e =>
              inr ("transferCursor.Next: " +:+ amount r
                     +:+ " Amount from string: " +:+ e)
          | inl a =>
              let m := {| DepositoryID := depository_id r;
                          UserID := user_id r;
                          Amount_ := a;
                          FileID := file_id r;
                          CreatedAt := created_at r |} in
              let max' := if (max <? CreatedAt m)%Z then CreatedAt m else max in
              scan_all d rs' max' (microDeposits ++ [m])
          end
      end
  end.

(** [Cursor.Next]: the batch, the error, and the cursor afterwards. *)
Definition Next (r : SQLRepo) (cur : Cursor)
  : (list UploadableCredit * option error) * Cursor :=
  match prepare_fault (db r) with
  | Some e => (([], Some ("microDepositCursor.Next: prepare: " +:+ e)), cur)
  | None =>
      match Query r (newerThan cur) (BatchSize cur) with
      | inr e => (([], Some ("microDepositCursor.Next: query: " +:+ e)), cur)
      | inl (rows, rows_Err) =>
          match scan_all (db r) rows (newerThan cur) [] with
          | inr e => (([], Some e), cur)
          | inl (max, microDeposits) =>
              ((microDeposits, rows_Err),
               {| BatchSize := BatchSize cur; newerThan := max |})
          end
      end
  end.

(** [GetCursor]: [midnight] is
    [time.Date(now.Year(), now.Month(), now.Day(), 0, 0, 0, 0, time.UTC)]. *)
Definition GetCursor (midnight : Z) (batchSize : Z) : Cursor :=
  {| BatchSize := batchSize; newerThan := midnight |}.

(** [c] is the credit read from row [r]. *)
Definition read_from (r : row) (c : UploadableCredit) : Prop :=
  FromString (amount r) = inl (Amount_ c) ∧
  DepositoryID c = depository_id r ∧ UserID c = user_id r ∧
  FileID c = file_id r ∧ CreatedAt c = created_at r.

(** Ascending creation order on credits. *)
Definition credit_le (a b : UploadableCredit) : Prop := (CreatedAt a ≤ CreatedAt b)%Z.

(** [n] calls of [Next] in a row against a table nobody else writes to:
    the batches in the order they came, and the cursor at the end. *)
Fixpoint drain (n : nat) (r : SQLRepo) (cur : Cursor)
  : list (list UploadableCredit) * Cursor :=
  match n with
  | O => ([], cur)
  | S n' =>
      let '((batch, _), cur') := Next r cur in
      let '(rest, cur'') := drain n' r cur' in
      (batch :: rest, cur'')
  end.

End Cursor.

Arguments Credit {Amount}.
Arguments DepositoryID {Amount}.
Arguments UserID {Amount}.
Arguments Amount_ {Amount}.
Arguments FileID {Amount}.
Arguments CreatedAt {Amount}.
Arguments read_from {Amount}.
Arguments credit_le {Amount}.
Arguments scan_all {Amount}.
Arguments Next {Amount}.
Arguments drain {Amount}.

End microdeposit.

(* ===================================================================== *)
(** * Package route: the idempotency recorder                             *)
(* ===================================================================== *)

Module route.

(** Modelled from the spec: [IdempotentRecorder.SeenBefore], which
    [TestRoute__Idempotency] exercises but whose code is not among the
    sources.  Section 4.1: the first call for a key returns false and
    records the key, every later call with that key returns true.  [seen]
    is the set of recorded keys; the result is the answer and the set
    afterwards. *)
Definition SeenBefore (key : string) (seen : gset string) : bool * gset string :=
  (bool_decide (key ∈ seen), {[key]} ∪ seen).

(** A run of calls, one per key of [keys], in order: the answers. *)
Fixpoint SeenBefore_all (keys : list string) (seen : gset string)
  : list bool * gset string :=
  match keys with
  | [] => ([], seen)
  | k :: ks =>
      let '(b, seen') := SeenBefore k seen in
      let '(bs, seen'') := SeenBefore_all ks seen' in
      (b :: bs, seen'')
  end.

End route.

(* ===================================================================== *)
(** * Package transfers: the HTTP handlers                                *)
(* ===================================================================== *)

Module transfers.

(** [ach.CCD], [ach.IAT], [ach.TEL], [ach.WEB] of github.com/moov-io/ach. *)
Definition ach_CCD : string := "CCD".
Definition ach_IAT : string := "IAT".
Definition ach_TEL : string := "TEL".
Definition ach_WEB : string := "WEB".

(** [sql.ErrNoRows] of database/sql. *)
Definition sql_ErrNoRows : error := "sql: no rows in result set".

(** What a handler observably does to its collaborators, in the order it
    does it.  Each event carries the arguments that identify the call and
    the error it came back with ([None] for success). *)
Inductive Event : Type :=
| SeenBefore_ (key : string) (seen : bool)
| GetUserReceiver_ (id userID : string) (err : option error)
| GetUserDepository_ (id userID : string) (err : option error)
| GetUserOriginator_ (id userID : string) (err : option error)
| AllowTransfer_ (userID : string) (err : option error)
| PostAccountTransaction_ (userID requestID : string) (err : option error)
| VerifyCustomerStatuses_ (requestID userID : string) (err : option error)
| VerifyDisclaimers_ (requestID userID : string) (err : option error)
| ConstructFile_ (transferID idempotencyKey : string) (err : option error)
| CreateFile_ (idempotencyKey : string) (res : string + error)
| CheckFile_ (fileID userID : string) (err : option error)
| WriteTransferEvent_ (userID : string) (err : option error)
| CreateUserTransfers_ (userID : string) (count : nat) (err : option error)
| GetUserTransfer_ (transferID userID : string) (err : option error)
| DeleteUserTransfer_ (transferID userID : string) (err : option error)
| GetFileIDForTransfer_ (transferID userID fileID : string) (err : option error)
| DeleteFile_ (fileID : string) (err : option error).

Global Instance Event_eq_dec : EqDecision Event.
Proof. solve_decision. Defined.

Definition err_of {A} (r : A + error) : option error :=
  match r with inl _ => None | inr e => Some e end.

(** Which call an event records. *)
Inductive Kind : Type :=
| KSeenBefore | KGetUserReceiver | KGetUserDepository | KGetUserOriginator
| KAllowTransfer | KPostAccountTransaction | KVerifyCustomerStatuses
| KVerifyDisclaimers | KConstructFile | KCreateFile | KCheckFile
| KWriteTransferEvent | KCreateUserTransfers | KGetUserTransfer
| KDeleteUserTransfer | KGetFileIDForTransfer | KDeleteFile.

Global Instance Kind_eq_dec : EqDecision Kind.
Proof. solve_decision. Defined.

Definition kind (e : Event) : Kind :=
  match e with
  | SeenBefore_ _ _ => KSeenBefore
  | GetUserReceiver_ _ _ _ => KGetUserReceiver
  | GetUserDepository_ _ _ _ => KGetUserDepository
  | GetUserOriginator_ _ _ _ => KGetUserOriginator
  | AllowTransfer_ _ _ => KAllowTransfer
  | PostAccountTransaction_ _ _ _ => KPostAccountTransaction
  | VerifyCustomerStatuses_ _ _ _ => KVerifyCustomerStatuses
  | VerifyDisclaimers_ _ _ _ => KVerifyDisclaimers
  | ConstructFile_ _ _ _ => KConstructFile
  | CreateFile_ _ _ => KCreateFile
  | CheckFile_ _ _ _ => KCheckFile
  | WriteTransferEvent_ _ _ => KWriteTransferEvent
  | CreateUserTransfers_ _ _ _ => KCreateUserTransfers
  | GetUserTransfer_ _ _ _ => KGetUserTransfer
  | DeleteUserTransfer_ _ _ _ => KDeleteUserTransfer
  | GetFileIDForTransfer_ _ _ _ _ => KGetFileIDForTransfer
  | DeleteFile_ _ _ => KDeleteFile
  end.

(** The error a call came back with. *)
Definition failure (e : Event) : option error :=
  match e with
  | SeenBefore_ _ _ => None
  | GetUserReceiver_ _ _ err | GetUserDepository_ _ _ err
  | GetUserOriginator_ _ _ err | AllowTransfer_ _ err
  | PostAccountTransaction_ _ _ err | VerifyCustomerStatuses_ _ _ err
  | VerifyDisclaimers_ _ _ err | ConstructFile_ _ _ err | CheckFile_ _ _ err
  | WriteTransferEvent_ _ err | CreateUserTransfers_ _ _ err
  | GetUserTransfer_ _ _ err | DeleteUserTransfer_ _ _ err
  | GetFileIDForTransfer_ _ _ _ err | DeleteFile_ _ err => err
  | CreateFile_ _ res => err_of res
  end.

Definition succeeded (e : Event) : Prop := failure e = None.

Global Instance succeeded_dec e : Decision (succeeded e).
Proof. unfold succeeded. apply _. Defined.

(** The design document's order for one request: the limit check comes
    before any entity of the request is resolved. *)
Definition limit_checked_first (t : list Event) : Prop :=
  ∀ i j e l, t !! i = Some e → t !! j = Some l →
    kind e ∈ [KGetUserReceiver; KGetUserDepository; KGetUserOriginator] →
    kind l = KAllowTransfer → j < i.

(** The types of package model and of the client packages, none of which
    is among the sources, with the constants, fields and methods of theirs
    that the handlers use. *)
Class Model : Type := {
  (** Everything outside the process: databases, the ledger, the customers
      service, the ACH service, the clock and the source of fresh IDs. *)
  World : Type;
  Amount : Type;
  Receiver : Type;
  Originator : Type;
  Depository : Type;
  Transaction : Type;
  File : Type;
  CCDDetail : Type;
  IATDetail : Type;
  TELDetail : Type;
  WEBDetail : Type;
  ACH : Type;
  AccountsClient : Type;
  CustomersClient : Type;
  EventRepository : Type;
  (** [model.TransferStatus] and [model.DepositoryStatus] are string types;
      these are the two constants the handlers compare with. *)
  TransferPending : string;
  DepositoryVerified : string;
  Depository_ID : Depository → string;
  Depository_Status : Depository → string;
  Depository_Validate : Depository → option error;
  Receiver_Validate : Receiver → option error;
  Originator_Validate : Originator → option error;
  Transaction_ID : Transaction → string
}.

Section Data.

Context `{Model}.

Record transferRequest : Type := TransferRequest {
  req_Type : string;
  req_Amount : Amount;
  req_Originator : string;
  req_OriginatorDepository : string;
  req_Receiver : string;
  req_ReceiverDepository : string;
  req_Description : string;
  req_StandardEntryClassCode : string;
  req_SameDay : bool;
  req_CCDDetail : option CCDDetail;
  req_IATDetail : option IATDetail;
  req_TELDetail : option TELDetail;
  req_WEBDetail : option WEBDetail;
  (* internal fields for auditing and tracing *)
  req_fileID : string;
  req_transactionID : string;
  req_remoteAddr : string;
  req_userID : string
}.

(** [model.Transfer], with the fields [asTransfer] fills in. *)
Record Transfer : Type := MkTransfer {
  ID : string;
  Type_ : string;
  Amount_ : Amount;
  Originator_ : string;
  OriginatorDepository : string;
  Receiver_ : string;
  ReceiverDepository : string;
  Description : string;
  StandardEntryClassCode : string;
  Status : string;
  SameDay : bool;
  Created : Z;
  UserID : string;
  CCDDetail_ : option CCDDetail;
  IATDetail_ : option IATDetail;
  TELDetail_ : option TELDetail;
  WEBDetail_ : option WEBDetail
}.

(** ** [missingFields] *)

(** The closure [check]: [missing] is the slice it appends to. *)
Definition check (missing : list string) (name s : string) : list string :=
  if decide (s = "") then missing ++ [name] else missing.

Fixpoint strings_Join (elems : list string) (sep : string) : string :=
  match elems with
  | [] => ""
  | [e] => e
  | e :: rest => e +:+ sep +:+ strings_Join rest sep
  end.

Definition missing_of (r : transferRequest) : list string :=
  let missing := [] in
  let missing := check missing "transferType" (req_Type r) in
  let missing := check missing "originator" (req_Originator r) in
  let missing := check missing "originatorDepository" (req_OriginatorDepository r) in
  let missing := check missing "receiver" (req_Receiver r) in
  let missing := check missing "receiverDepository" (req_ReceiverDepository r) in
  let missing := check missing "standardEntryClassCode" (req_StandardEntryClassCode r) in
  missing.

Definition missingFields (r : transferRequest) : option error :=
  let missing := missing_of r in
  if decide (0 < length missing) then
    Some ("missing " +:+ strings_Join missing ", " +:+ " JSON field(s)")
  else None.

(** The fields the design document requires of a request, each with its
    JSON name and its value in [r]. *)
Definition required_fields (r : transferRequest) : list (string * string) :=
  [ ("transferType", req_Type r);
    ("originator", req_Originator r);
    ("originatorDepository", req_OriginatorDepository r);
    ("receiver", req_Receiver r);
    ("receiverDepository", req_ReceiverDepository r);
    ("standardEntryClassCode", req_StandardEntryClassCode r) ].

(** ** [asTransfer]; [now] is the value of [base.Now()]. *)
Definition asTransfer (r : transferRequest) (transferID : string) (now : Z)
  : Transfer :=
  let code := req_StandardEntryClassCode r in
  {| ID := transferID;
     Type_ := req_Type r;
     Amount_ := req_Amount r;
     Originator_ := req_Originator r;
     OriginatorDepository := req_OriginatorDepository r;
     Receiver_ := req_Receiver r;
     ReceiverDepository := req_ReceiverDepository r;
     Description := req_Description r;
     StandardEntryClassCode := code;
     Status := TransferPending;
     SameDay := req_SameDay r;
     Created := now;
     UserID := req_userID r;
     CCDDetail_ := if decide (code = ach_CCD) then req_CCDDetail r else None;
     IATDetail_ := if decide (code = ach_IAT) then req_IATDetail r else None;
     TELDetail_ := if decide (code = ach_TEL) then req_TELDetail r else None;
     WEBDetail_ := if decide (code = ach_WEB) then req_WEBDetail r else None |}.

(** ** Collaborators *)

(** Modelled from the spec: the repositories are interfaces whose
    implementations are not among the sources; section 6 gives each lookup
    the contract "entity or not found", so a lookup returns an entity or an
    error and never neither. *)
Record depository_Repository : Type := {
  GetUserDepository : string → string → World → (Depository + error) * World
}.
Record receivers_Repository : Type := {
  GetUserReceiver : string → string → World → (Receiver + error) * World
}.
Record originators_Repository : Type := {
  GetUserOriginator : string → string → World → (Originator + error) * World
}.
(** The package's own [Repository] interface. *)
Record Repository : Type := {
  repo_getUserTransfer : string → string → World → (Transfer + error) * World;
  repo_createUserTransfers :
    string → list transferRequest → World → (list Transfer + error) * World;
  repo_deleteUserTransfer : string → string → World → option error * World;
  repo_GetFileIDForTransfer :
    string → string → World → (string * option error) * World
}.
Record LimitChecker : Type := {
  allowTransfer : string → World → option error * World
}.

Record TransferRouter : Type := {
  depRepo : depository_Repository;
  eventRepo : EventRepository;
  receiverRepository : receivers_Repository;
  origRepo : originators_Repository;
  transferRepo : Repository;
  transferLimitChecker : LimitChecker;
  achClientFactory : string → ACH;
  accountsClient : option AccountsClient;
  customersClient : option CustomersClient
}.

End Data.

(** Functions and methods of other packages and files of the repository
    that the handlers call. *)
Class Externals `{Model} : Type := {
  base_ID : World → string * World;
  base_Now : World → Z * World;
  postAccountTransaction :
    AccountsClient → string → Depository → Depository → Amount → string → string →
    World → (Transaction + error) * World;
  verifyCustomerStatuses :
    Originator → Receiver → CustomersClient → string → string →
    World → option error * World;
  verifyDisclaimersAreAccepted :
    Originator → Receiver → CustomersClient → string → string →
    World → option error * World;
  remoteach_ConstructFile :
    string → string → Transfer → Receiver → Depository → Originator → Depository →
    World → (File + error) * World;
  remoteach_CheckFile : ACH → string → string → World → option error * World;
  ACH_CreateFile : ACH → string → File → World → (string + error) * World;
  ACH_DeleteFile : ACH → string → World → option error * World;
  writeTransferEvent :
    string → transferRequest → EventRepository → World → option error * World
}.

(** What [json.NewEncoder(w).Encode] is given. *)
Inductive Rendered `{Model} : Type :=
| RenderObject (t : Transfer)
| RenderArray (ts : list Transfer).

Inductive Response `{Model} : Type :=
| PreconditionFailed                 (* 412, written by the responder *)
| Problem (err : error)              (* responder.Problem(err) *)
| StatusOK (rendered : option Rendered)
| Panic (msg : string).              (* a run-time panic of the handler *)

(** A handler in progress either goes on with a value or has written its
    response and returned. *)
Inductive step `{Model} (A : Type) : Type :=
| Continue (a : A)
| Return_ (resp : Response).
Arguments Continue {_ A}.
Arguments Return_ {_ A}.

Section Handlers.

Context `{Externals}.

(** ** Requests, responses and the handler monad *)

(** The body as [readTransferRequests] meets it: [ioutil.ReadAll] fails,
    or the bytes decode as one [transferRequest], or they do not but
    decode as a [[]*transferRequest], or neither ([err] is the error of
    the second [json.Unmarshal]). *)
Inductive Body : Type :=
| BodyUnreadable (err : error)
| BodyObject (req : transferRequest)
| BodyArray (requests : list transferRequest)
| BodyInvalid (err : error).

(** The parts of [*http.Request] the handlers look at. *)
Record Request : Type := {
  x_idempotency_key : string;      (* idempotent.Header(r) *)
  x_user_id : string;
  x_request_id : string;
  remote_addr : string;            (* route.RemoteAddr(r.Header) *)
  body : Body;
  vars_transferId : option string  (* mux.Vars(r)["transferId"] *)
}.

Record Responder : Type := {
  XUserID : string;
  XRequestID : string
}.

(** The key store of the process-wide [IdempotentRecorder], and the
    world. *)
Record State : Type := {
  recorder : gset string;
  world : World
}.

(** A call on the world, with the events it leaves. *)
Definition Eff (A : Type) : Type := World → A * list Event * World.

Definition M (A : Type) : Type := State → step A * list Event * State.

Definition ret {A} (a : A) : M A := λ s, (Continue a, [], s).

Definition bind {A B} (m : M A) (f : A → M B) : M B := λ s,
  match m s with
  | (Continue a, t1, s1) => let '(r, t2, s2) := f a s1 in (r, t1 ++ t2, s2)
  | (Return_ resp, t1, s1) => (Return_ resp, t1, s1)
  end.

(** Write [resp] and [return]. *)
Definition respond {A} (resp : Response) : M A := λ s, (Return_ resp, [], s).

Definition lift {A} (e : Eff A) : M A := λ s,
  let '(a, t, w) := e (world s) in
  (Continue a, t, {| recorder := recorder s; world := w |}).

(** A collaborator call that leaves the event [ev]. *)
Definition call {A} (op : World → A * World) (ev : A → Event) : M A :=
  lift (λ w, let '(a, w') := op w in (a, [ev a], w')).

(** A call that leaves none: the clock and the ID generator. *)
Definition quiet {A} (op : World → A * World) : M A :=
  lift (λ w, let '(a, w') := op w in (a, [], w')).

Notation "x <- m ;; k" := (bind m (λ x, k))
  (at level 100, m at next level, right associativity).

(** ** [getTransferObjects] *)

(** The five values the Go function returns; [None] is [nil]. *)
Definition Objects : Type :=
  option Receiver * option Depository * option Originator * option Depository
  * option error.

Definition none_but (err : error) : Objects := (None, None, None, None, Some err).

Definition getTransferObjects (req : transferRequest) (userID : string)
    (depRepo : depository_Repository) (receiverRepository : receivers_Repository)
    (origRepo : originators_Repository) : Eff Objects := λ w,
  (* Receiver *)
  let '(r, w) := GetUserReceiver receiverRepository (req_Receiver req) userID w in
  let t := [GetUserReceiver_ (req_Receiver req) userID (err_of r)] in
  match r with
  | inr _ => (none_but "receiver not found", t, w)
  | inl receiver =>
  match Receiver_Validate receiver with
  | Some err => (none_but ("receiver: " +:+ err), t, w)
  | None =>
  let '(r, w) := GetUserDepository depRepo (req_ReceiverDepository req) userID w in
  let t := t ++ [GetUserDepository_ (req_ReceiverDepository req) userID (err_of r)] in
  match r with
  | inr _ => (none_but "receiver depository not found", t, w)
  | inl receiverDep =>
  if decide (Depository_Status receiverDep ≠ DepositoryVerified) then
    (none_but ("receiver depository " +:+ Depository_ID receiverDep
               +:+ " is in status " +:+ Depository_Status receiverDep), t, w)
  else
  match Depository_Validate receiverDep with
  | Some err => (none_but ("receiver depository: " +:+ err), t, w)
  | None =>
  (* Originator *)
  let '(r, w) := GetUserOriginator origRepo (req_Originator req) userID w in
  let t := t ++ [GetUserOriginator_ (req_Originator req) userID (err_of r)] in
  match r with
  | inr _ => (none_but "originator not found", t, w)
  | inl orig =>
  match Originator_Validate orig with
  | Some err => (none_but ("originator: " +:+ err), t, w)
  | None =>
  let '(r, w) := GetUserDepository depRepo (req_OriginatorDepository req) userID w in
  let t := t ++ [GetUserDepository_ (req_OriginatorDepository req) userID (err_of r)] in
  match r with
  | inr _ => (none_but "originator Depository not found", t, w)
  | inl origDep =>
  if decide (Depository_Status origDep ≠ DepositoryVerified) then
    (none_but ("originator Depository " +:+ Depository_ID origDep
               +:+ " is in status " +:+ Depository_Status origDep), t, w)
  else
  match Depository_Validate origDep with
  | Some err => (none_but ("originator depository: " +:+ err), t, w)
  | None =>
  ((Some receiver, Some receiverDep, Some orig, Some origDep, None), t, w)
  end end end end end end end end.

(** ** [readTransferRequests] and [writeResponse] *)

Definition readTransferRequests (b : Body) : list transferRequest + error :=
  match b with
  | BodyUnreadable err => inr err
  | BodyInvalid err => inr err
  | BodyObject req =>
      match missingFields req with
      | Some err => inr err
      | None => inl [req]
      end
  | BodyArray requests =>
      if decide (length requests = 0) then inr "no Transfer request objects found"
      else inl requests
  end.

Definition writeResponse (reqCount : nat) (transfers : list Transfer) : Response :=
  if decide (reqCount = 1) then
    (* don't render surrounding array for single transfer create *)
    match transfers with
    | t :: _ => StatusOK (Some (RenderObject t))
    | [] => Panic "runtime error: index out of range [0] with length 0"
    end
  else StatusOK (Some (RenderArray transfers)).

(** ** The responder *)

(** Modelled from the spec: [route.NewResponder], of which only the test
    is among the sources.  Sections 2 and 4.1: an inbound request first
    passes the Idempotency Recorder; a key seen before is answered with
    "precondition failed" and the handler gets no responder (the [nil]
    the handlers test for).  A request without the header carries no key
    to look up, as in [createUserTransfers], where the empty string
    stands for "no incoming key". *)
Definition NewResponder (r : Request) : M Responder := λ s,
  let responder := {| XUserID := x_user_id r; XRequestID := x_request_id r |} in
  if decide (x_idempotency_key r = "") then (Continue responder, [], s)
  else
    let '(seen, keys) := route.SeenBefore (x_idempotency_key r) (recorder s) in
    let s' := {| recorder := keys; world := world s |} in
    let t := [SeenBefore_ (x_idempotency_key r) seen] in
    if seen then (Return_ PreconditionFailed, t, s')
    else (Continue responder, t, s').

Definition getTransferID (r : Request) : string :=
  match vars_transferId r with
  | Some v => v
  | None => ""
  end.

(** ** [createUserTransfers] *)

(** [requests[i].remoteAddr = remoteIP; requests[i].userID = ...] *)
Definition set_origin (r : transferRequest) (remoteIP userID : string)
  : transferRequest :=
  {| req_Type := req_Type r; req_Amount := req_Amount r;
     req_Originator := req_Originator r;
     req_OriginatorDepository := req_OriginatorDepository r;
     req_Receiver := req_Receiver r;
     req_ReceiverDepository := req_ReceiverDepository r;
     req_Description := req_Description r;
     req_StandardEntryClassCode := req_StandardEntryClassCode r;
     req_SameDay := req_SameDay r;
     req_CCDDetail := req_CCDDetail r; req_IATDetail := req_IATDetail r;
     req_TELDetail := req_TELDetail r; req_WEBDetail := req_WEBDetail r;
     req_fileID := req_fileID r; req_transactionID := req_transactionID r;
     req_remoteAddr := remoteIP; req_userID := userID |}.

(** [req.fileID = fileID; req.transactionID = transactionID] *)
Definition set_ids (r : transferRequest) (fileID transactionID : string)
  : transferRequest :=
  {| req_Type := req_Type r; req_Amount := req_Amount r;
     req_Originator := req_Originator r;
     req_OriginatorDepository := req_OriginatorDepository r;
     req_Receiver := req_Receiver r;
     req_ReceiverDepository := req_ReceiverDepository r;
     req_Description := req_Description r;
     req_StandardEntryClassCode := req_StandardEntryClassCode r;
     req_SameDay := req_SameDay r;
     req_CCDDetail := req_CCDDetail r; req_IATDetail := req_IATDetail r;
     req_TELDetail := req_TELDetail r; req_WEBDetail := req_WEBDetail r;
     req_fileID := fileID; req_transactionID := transactionID;
     req_remoteAddr := req_remoteAddr r; req_userID := req_userID r |}.

(** An [if err != nil { responder.Problem(err); return }]. *)
Definition or_problem (err : option error) : M unit :=
  match err with
  | Some e => respond (Problem e)
  | None => ret tt
  end.

(** The body of [for i := range requests]: the request as the iteration
    leaves it in the slice. *)
Definition create_one (c : TransferRouter) (responder : Responder)
    (achClient : ACH) (idempotencyKey remoteIP : string)
    (req : transferRequest) : M transferRequest :=
  let userID := XUserID responder in
  transferID <- quiet base_ID ;;
  _ <- or_problem (missingFields req) ;;
  let req := set_origin req remoteIP userID in
  (* Grab and validate objects required for this transfer. *)
  objects <- lift (getTransferObjects req userID (depRepo c)
                     (receiverRepository c) (origRepo c)) ;;
  match objects with
  | (_, _, _, _, Some err) =>
      respond (Problem ("missing data to create transfer: " +:+ err))
  | (Some receiver, Some receiverDep, Some orig, Some origDep, None) =>
      (* Check limits for this userID and destination *)
      err <- call (allowTransfer (transferLimitChecker c) userID)
               (AllowTransfer_ userID) ;;
      _ <- or_problem err ;;
      (* Post the Transfer's transaction against the Accounts *)
      transactionID <-
        match accountsClient c with
        | Some client =>
            tx <- call (postAccountTransaction client userID origDep receiverDep
                          (req_Amount req) (req_Type req) (XRequestID responder))
                    (λ tx, PostAccountTransaction_ userID (XRequestID responder)
                             (err_of tx)) ;;
            match tx with
            | inr err => respond (Problem err)
            | inl tx => ret (Transaction_ID tx)
            end
        | None => ret ""
        end ;;
      (* Verify Customer statuses related to this transfer *)
      _ <-
        match customersClient c with
        | Some client =>
            err <- call (verifyCustomerStatuses orig receiver client
                           (XRequestID responder) userID)
                     (VerifyCustomerStatuses_ (XRequestID responder) userID) ;;
            _ <- or_problem err ;;
            (* Check disclaimers for Originator and Receiver *)
            err <- call (verifyDisclaimersAreAccepted orig receiver client
                           (XRequestID responder) userID)
                     (VerifyDisclaimers_ (XRequestID responder) userID) ;;
            or_problem err
        | None => ret tt
        end ;;
      (* Save Transfer object *)
      now <- quiet base_Now ;;
      let transfer := asTransfer req transferID now in
      file <- call (remoteach_ConstructFile transferID idempotencyKey transfer
                      receiver receiverDep orig origDep)
                (λ f, ConstructFile_ transferID idempotencyKey (err_of f)) ;;
      match file with
      | inr err => respond (Problem err)
      | inl file =>
          fileID <- call (ACH_CreateFile achClient idempotencyKey file)
                      (CreateFile_ idempotencyKey) ;;
          match fileID with
          | inr err => respond (Problem err)
          | inl fileID =>
              err <- call (remoteach_CheckFile achClient fileID userID)
                       (CheckFile_ fileID userID) ;;
              _ <- or_problem err ;;
              (* Add internal ID's (fileID, transaction.ID) onto our request *)
              let req := set_ids req fileID transactionID in
              (* Write events for our audit/history log *)
              err <- call (writeTransferEvent userID req (eventRepo c))
                       (WriteTransferEvent_ userID) ;;
              _ <- or_problem err ;;
              ret req
          end
      end
  | _ =>
      (* err == nil with a nil object: the first use dereferences it *)
      respond (Panic "runtime error: invalid memory address or nil pointer dereference")
  end.

Fixpoint create_each (c : TransferRouter) (responder : Responder)
    (achClient : ACH) (idempotencyKey remoteIP : string)
    (requests : list transferRequest) : M (list transferRequest) :=
  match requests with
  | [] => ret []
  | req :: rest =>
      req' <- create_one c responder achClient idempotencyKey remoteIP req ;;
      rest' <- create_each c responder achClient idempotencyKey remoteIP rest ;;
      ret (req' :: rest')
  end.

Definition createUserTransfers (c : TransferRouter) (r : Request) : M Response :=
  responder <- NewResponder r ;;
  match readTransferRequests (body r) with
  | inr err => respond (Problem err)
  | inl requests =>
      let achClient := achClientFactory c (XUserID responder) in
      (* Carry over any incoming idempotency key and set one otherwise *)
      idempotencyKey <-
        (if decide (x_idempotency_key r = "") then quiet base_ID
         else ret (x_idempotency_key r)) ;;
      let remoteIP := remote_addr r in
      requests <- create_each c responder achClient idempotencyKey remoteIP
                    requests ;;
      transfers <- call (repo_createUserTransfers (transferRepo c)
                           (XUserID responder) requests)
                     (λ ts, CreateUserTransfers_ (XUserID responder)
                              (length requests) (err_of ts)) ;;
      match transfers with
      | inr err => respond (Problem err)
      | inl transfers => respond (writeResponse (length requests) transfers)
      end
  end.

(** ** [deleteUserTransfer] *)

Definition deleteUserTransfer (c : TransferRouter) (r : Request) : M Response :=
  responder <- NewResponder r ;;
  let userID := XUserID responder in
  let transferID := getTransferID r in
  transfer <- call (repo_getUserTransfer (transferRepo c) transferID userID)
                (λ t, GetUserTransfer_ transferID userID (err_of t)) ;;
  match transfer with
  | inr err => respond (Problem err)
  | inl transfer =>
      if decide (Status transfer ≠ TransferPending) then
        respond (Problem ("a " +:+ Status transfer +:+ " transfer can't be deleted"))
      else
        (* Delete from our database *)
        err <- call (repo_deleteUserTransfer (transferRepo c) transferID userID)
                 (DeleteUserTransfer_ transferID userID) ;;
        _ <- or_problem err ;;
        (* Delete from our ACH service *)
        found <- call (repo_GetFileIDForTransfer (transferRepo c) transferID userID)
                   (λ f, GetFileIDForTransfer_ transferID userID (fst f) (snd f)) ;;
        let '(fileID, err) := found in
        _ <- (match err with
              | Some e => if decide (e ≠ sql_ErrNoRows) then respond (Problem e)
                          else ret tt
              | None => ret tt
              end) ;;
        _ <- (if decide (fileID ≠ "") then
                err <- call (ACH_DeleteFile (achClientFactory c userID) fileID)
                         (DeleteFile_ fileID) ;;
                or_problem err
              else ret tt) ;;
        respond (StatusOK None)
  end.

(** ** The order of the calls *)

(** The calls of one turn of the loop of [createUserTransfers], in the
    order of the source text; the ledger and the customers service are
    called only when the router has a client for them. *)
Definition pipeline (c : TransferRouter) : list Kind :=
  [KGetUserReceiver; KGetUserDepository; KGetUserOriginator; KGetUserDepository;
   KAllowTransfer]
  ++ match accountsClient c with
     | Some _ => [KPostAccountTransaction]
     | None => []
     end
  ++ match customersClient c with
     | Some _ => [KVerifyCustomerStatuses; KVerifyDisclaimers]
     | None => []
     end
  ++ [KConstructFile; KCreateFile; KCheckFile; KWriteTransferEvent].

(** A trace that walks the pipeline from its start, each call made only
    after the one before it succeeded. *)
Definition in_pipeline_order (c : TransferRouter) (t : list Event) : Prop :=
  (kind <$> t) `prefix_of` pipeline c ∧
  Forall succeeded (take (pred (length t)) t).

(** A trace that walked all of it. *)
Definition completed (c : TransferRouter) (t : list Event) : Prop :=
  kind <$> t = pipeline c ∧ Forall succeeded t.

(** A handler run to its end: the response, the trace, the state. *)
Definition serve (h : M Response) (s : State) : Response * list Event * State :=
  match h s with
  | (Continue resp, t, s') => (resp, t, s')
  | (Return_ resp, t, s') => (resp, t, s')
  end.

End Handlers.

End transfers.

(* ===================================================================== *)
(** * A small deployment to run the model on                              *)
(* ===================================================================== *)

Module sample.

Import microdeposit.

(** A parser to run the cursor with: amounts are kept as written and must
    start with the currency, as in ["USD 0.07"]. *)
Definition parse_amount (s : string) : string + error :=
  if String.prefix "USD " s then inl s else inr "invalid Amount format".

(** An unmerged, undeleted micro-deposit of 7 cents created at [t]. *)
Definition credit_row (dep : string) (t : Z) : row :=
  {| depository_id := dep; user_id := "user"; amount := "USD 0.07"; file_id := "";
     created_at := t; deleted_at := None; merged_filename := None |}.

Definition credit (dep : string) (t : Z) : UploadableCredit string :=
  {| DepositoryID := dep; UserID := "user"; Amount_ := "USD 0.07"; FileID := "";
     CreatedAt := t |}.

(** Three pending credits, stored out of order next to a merged one, a
    deleted one and one from the day before. *)
Definition three_pending : list row :=
  [ credit_row "d3" 30;
    {| depository_id := "m"; user_id := "user"; amount := "USD 0.01"; file_id := "f";
       created_at := 15; deleted_at := None; merged_filename := Some "20200101.ach" |};
    credit_row "d1" 10;
    {| depository_id := "x"; user_id := "user"; amount := "USD 0.02"; file_id := "";
       created_at := 25; deleted_at := Some 26%Z; merged_filename := None |};
    credit_row "d2" 20;
    credit_row "d0" (-5) ].

(** The second pending credit carries an amount that does not parse. *)
Definition one_malformed : list row :=
  [ credit_row "d1" 10;
    {| depository_id := "d2"; user_id := "user"; amount := "0.07 dollars";
       file_id := ""; created_at := 20; deleted_at := None; merged_filename := None |};
    credit_row "d3" 30 ].

(** Two pending credits created at the same instant. *)
Definition twins : list row := [ credit_row "dep-a" 5; credit_row "dep-b" 5 ].

(** ** An in-memory world for the handlers *)

Import transfers.

(** A row of the transfers table; deleting a transfer marks its row. *)
Record stored : Type := Stored {
  st_id : string;
  st_user : string;
  st_status : string;
  st_file : string;
  st_deleted : bool
}.

Record SimWorld : Type := Sim {
  next_id : nat;                 (* how many IDs [base.ID] has handed out *)
  clock : Z;
  budget : nat;                  (* transfers the limit checker still allows *)
  ledger : list string;          (* request IDs with a posted transaction *)
  ach_files : list string;       (* file IDs the ACH service holds *)
  ach_down : bool;               (* the ACH service answers 500 *)
  audit : list string;           (* file IDs of the transfer events written *)
  table : list stored            (* the transfers table *)
}.

Definition set_next_id (w : SimWorld) (n : nat) : SimWorld :=
  Sim n (clock w) (budget w) (ledger w) (ach_files w) (ach_down w) (audit w) (table w).
Definition set_budget (w : SimWorld) (n : nat) : SimWorld :=
  Sim (next_id w) (clock w) n (ledger w) (ach_files w) (ach_down w) (audit w) (table w).
Definition set_ledger (w : SimWorld) (l : list string) : SimWorld :=
  Sim (next_id w) (clock w) (budget w) l (ach_files w) (ach_down w) (audit w) (table w).
Definition set_ach_files (w : SimWorld) (l : list string) : SimWorld :=
  Sim (next_id w) (clock w) (budget w) (ledger w) l (ach_down w) (audit w) (table w).
Definition set_audit (w : SimWorld) (l : list string) : SimWorld :=
  Sim (next_id w) (clock w) (budget w) (ledger w) (ach_files w) (ach_down w) l (table w).
Definition set_table (w : SimWorld) (l : list stored) : SimWorld :=
  Sim (next_id w) (clock w) (budget w) (ledger w) (ach_files w) (ach_down w) (audit w) l.

(** IDs are ["id"], ["id'"], ["id''"], ... *)
Fixpoint id_of (n : nat) : string :=
  match n with
  | O => "id"
  | S n' => id_of n' +:+ "'"
  end.

(** Entities are known by their ID; a depository is its ID and status. *)
Definition sim_model : Model := {|
  World := SimWorld;
  Amount := Z;
  Receiver := string;
  Originator := string;
  Depository := string * string;
  Transaction := string;
  File := string;
  CCDDetail := unit; IATDetail := unit; TELDetail := unit; WEBDetail := unit;
  ACH := string;
  AccountsClient := unit;
  CustomersClient := unit;
  EventRepository := unit;
  TransferPending := "pending";
  DepositoryVerified := "verified";
  Depository_ID := fst;
  Depository_Status := snd;
  Depository_Validate := λ _, None;
  Receiver_Validate := λ _, None;
  Originator_Validate := λ _, None;
  Transaction_ID := λ tx, tx
|}.

Local Existing Instance sim_model.

Definition lookup_entity (id : string) (w : SimWorld) : (string + error) * SimWorld :=
  (if decide (id = "") then inr sql_ErrNoRows else inl id, w).

(** Every depository is verified, except the one called ["new-account"]. *)
Definition lookup_depository (id : string) (w : SimWorld)
  : (string * string + error) * SimWorld :=
  (if decide (id = "") then inr sql_ErrNoRows
   else if decide (id = "new-account") then inl (id, "unverified")
   else inl (id, "verified"), w).

Definition owned (id user : string) (row : stored) : Prop :=
  st_id row = id ∧ st_user row = user.

Global Instance owned_dec id user row : Decision (owned id user row).
Proof. unfold owned. apply _. Defined.

Definition visible (id user : string) (row : stored) : Prop :=
  owned id user row ∧ st_deleted row = false.

Global Instance visible_dec id user row : Decision (visible id user row).
Proof. unfold visible. apply _. Defined.

Definition transfer_of (row : stored) : Transfer :=
  {| ID := st_id row; Type_ := "push"; Amount_ := 0%Z; Originator_ := "";
     OriginatorDepository := ""; Receiver_ := ""; ReceiverDepository := "";
     Description := ""; StandardEntryClassCode := "PPD"; Status := st_status row;
     SameDay := false; Created := 0%Z; UserID := st_user row;
     CCDDetail_ := None; IATDetail_ := None; TELDetail_ := None; WEBDetail_ := None |}.

Definition mark_deleted (id user : string) (row : stored) : stored :=
  if decide (owned id user row)
  then Stored (st_id row) (st_user row) (st_status row) (st_file row) true
  else row.

(** The transfers table: reads skip deleted rows, the file ID lookup does
    not, and new transfers are named after their file. *)
Definition sim_repository : Repository := {|
  repo_getUserTransfer := λ id user w,
    (match filter (visible id user) (table w) with
     | row :: _ => inl (transfer_of row)
     | [] => inr sql_ErrNoRows
     end, w);
  repo_createUserTransfers := λ user requests w,
    (inl ((λ r, asTransfer r ("transfer-" +:+ req_fileID r) (clock w)) <$> requests),
     set_table w
       (table w ++
        ((λ r, Stored ("transfer-" +:+ req_fileID r) user "pending" (req_fileID r) false)
           <$> requests)));
  repo_deleteUserTransfer := λ id user w,
    (None, set_table w (mark_deleted id user <$> table w));
  repo_GetFileIDForTransfer := λ id user w,
    (match filter (owned id user) (table w) with
     | row :: _ => (st_file row, None)
     | [] => ("", Some sql_ErrNoRows)
     end, w)
|}.

Definition sim_limits : LimitChecker := {|
  allowTransfer := λ user w,
    match budget w with
    | O => (Some "transfer limit exceeded", w)
    | S n => (None, set_budget w n)
    end
|}.

Definition sim_externals : Externals := {|
  base_ID := λ w, (id_of (next_id w), set_next_id w (S (next_id w)));
  base_Now := λ w, (clock w, w);
  postAccountTransaction := λ _ user _ _ _ _ requestID w,
    (inl ("tx-" +:+ requestID), set_ledger w (ledger w ++ [requestID]));
  verifyCustomerStatuses := λ _ _ _ _ _ w, (None, w);
  verifyDisclaimersAreAccepted := λ _ _ _ _ _ w, (None, w);
  remoteach_ConstructFile := λ transferID _ _ _ _ _ _ w,
    (inl ("file-" +:+ transferID), w);
  remoteach_CheckFile := λ _ _ _ w, (None, w);
  ACH_CreateFile := λ _ _ file w,
    if ach_down w then (inr "CreateFile: 500 Internal Server Error", w)
    else (inl file, set_ach_files w (ach_files w ++ [file]));
  ACH_DeleteFile := λ _ fileID w,
    if ach_down w then (Some "DeleteFile: 500 Internal Server Error", w)
    else if decide (fileID ∈ ach_files w)
         then (None, set_ach_files w (filter (λ f, f ≠ fileID) (ach_files w)))
         else (Some "DeleteFile: 404 Not Found", w);
  writeTransferEvent := λ _ req _ w, (None, set_audit w (audit w ++ [req_fileID req]))
|}.

Local Existing Instance sim_externals.

(** A router with every collaborator wired in. *)
Definition sim_router : TransferRouter := {|
  depRepo := {| GetUserDepository := λ id _ w, lookup_depository id w |};
  eventRepo := tt;
  receiverRepository := {| GetUserReceiver := λ id _ w, lookup_entity id w |};
  origRepo := {| GetUserOriginator := λ id _ w, lookup_entity id w |};
  transferRepo := sim_repository;
  transferLimitChecker := sim_limits;
  achClientFactory := λ user, user;
  accountsClient := Some tt;
  customersClient := Some tt
|}.

(** A well-formed request for 12.50, class PPD. *)
Definition push (receiver : string) : transferRequest :=
  {| req_Type := "push"; req_Amount := 1250%Z;
     req_Originator := "orig"; req_OriginatorDepository := "orig-dep";
     req_Receiver := receiver; req_ReceiverDepository := receiver +:+ "-dep";
     req_Description := ""; req_StandardEntryClassCode := "PPD"; req_SameDay := false;
     req_CCDDetail := None; req_IATDetail := None; req_TELDetail := None;
     req_WEBDetail := None;
     req_fileID := ""; req_transactionID := ""; req_remoteAddr := ""; req_userID := "" |}.

Definition post (key : string) (b : Body) : Request :=
  {| x_idempotency_key := key; x_user_id := "user"; x_request_id := "req";
     remote_addr := "10.0.0.1"; body := b; vars_transferId := None |}.

Definition delete (transferID : string) : Request :=
  {| x_idempotency_key := ""; x_user_id := "user"; x_request_id := "req";
     remote_addr := "10.0.0.1"; body := BodyInvalid "EOF";
     vars_transferId := Some transferID |}.

(** A request with no transfer type and no receiver. *)
Definition incomplete : transferRequest :=
  {| req_Type := ""; req_Amount := 1250%Z;
     req_Originator := "orig"; req_OriginatorDepository := "orig-dep";
     req_Receiver := ""; req_ReceiverDepository := "alice-dep";
     req_Description := ""; req_StandardEntryClassCode := "PPD"; req_SameDay := false;
     req_CCDDetail := None; req_IATDetail := None; req_TELDetail := None;
     req_WEBDetail := None;
     req_fileID := ""; req_transactionID := ""; req_remoteAddr := ""; req_userID := "" |}.

(** A world after one transfer was created: its row is stored with the
    file ID ["file-id"]; the ACH service holds [files] and is down or not. *)
Definition uploaded (files : list string) (down : bool) : State :=
  {| recorder := ∅;
     world := {| next_id := 1; clock := 1000; budget := 4; ledger := ["req"];
                 ach_files := files; ach_down := down; audit := ["file-id"];
                 table := [Stored "transfer-file-id" "user" "pending" "file-id" false] |} |}.

(** A fresh world in which the key ["k1"] has been seen. *)
Definition seen_k1 : State :=
  {| recorder := {["k1"]};
     world := {| next_id := 0; clock := 1000; budget := 5; ledger := [];
                 ach_files := []; ach_down := false; audit := []; table := [] |} |}.

(** A fresh world whose limit checker allows [n] transfers. *)
Definition fresh (n : nat) : State :=
  {| recorder := ∅;
     world := {| next_id := 0; clock := 1000; budget := n; ledger := [];
                 ach_files := []; ach_down := false; audit := []; table := [] |} |}.

End sample.

(* ===================================================================== *)
(** * Further vocabulary                                                  *)
(* ===================================================================== *)

Module further.

Import microdeposit transfers.

(** One call of [Next] against each state of the database in [rs], in
    order: other writers may have changed the table between two calls.
    The batches in the order they came, and the cursor at the end. *)
Fixpoint Next_each {Amount : Type} (FromString : string → Amount + error)
    (order_by : list row → list row) (rs : list SQLRepo) (cur : Cursor)
  : list (list (UploadableCredit Amount)) * Cursor :=
  match rs with
  | [] => ([], cur)
  | r :: rs' =>
      let '((batch, _), cur') := Next FromString order_by r cur in
      let '(rest, cur'') := Next_each FromString order_by rs' cur' in
      (batch :: rest, cur'')
  end.

(** A driver whose iteration breaks after one row. *)
Definition breaks_after_one : driver :=
  {| prepare_fault := None; query_fault := None; scan_fault := λ _, None;
     rows_fault := Some (1, "driver: bad connection") |}.

(** The user ID a call was made with, for the calls that take one. *)
Definition user_of (e : Event) : option string :=
  match e with
  | GetUserReceiver_ _ u _ | GetUserDepository_ _ u _ | GetUserOriginator_ _ u _
  | AllowTransfer_ u _ | PostAccountTransaction_ u _ _
  | VerifyCustomerStatuses_ _ u _ | VerifyDisclaimers_ _ u _
  | CheckFile_ _ u _ | WriteTransferEvent_ u _ | CreateUserTransfers_ u _ _
  | GetUserTransfer_ _ u _ | DeleteUserTransfer_ _ u _
  | GetFileIDForTransfer_ _ u _ _ => Some u
  | SeenBefore_ _ _ | ConstructFile_ _ _ _ | CreateFile_ _ _ | DeleteFile_ _ _ => None
  end.

(** The idempotency key a file was constructed or uploaded under. *)
Definition upload_key_of (e : Event) : option string :=
  match e with
  | ConstructFile_ _ k _ | CreateFile_ k _ => Some k
  | _ => None
  end.

(** 1 for a pointer that is set, 0 for nil. *)
Definition present {A : Type} (o : option A) : nat :=
  match o with Some _ => 1 | None => 0 end.

End further.

(* ===================================================================== *)
(** * Properties of the cursor                                            *)
(* ===================================================================== *)

Section CursorFacts.

Import microdeposit.

Context {Amount : Type}.
Variable FromString : string → Amount + error.
Variable order_by : list row → list row.
Context `{!OrderBy order_by}.

Local Abbreviation Next := (microdeposit.Next FromString order_by).
Local Abbreviation scan_all := (microdeposit.scan_all FromString).
Local Abbreviation select_rows := (microdeposit.select_rows order_by).
Local Abbreviation Query := (microdeposit.Query order_by).
Local Abbreviation read_from := (microdeposit.read_from FromString).

(** The loop keeps what it had, adds one credit per row in row order, and
    leaves the largest instant met in [max]. *)
Lemma scan_all_inl d rs : ∀ max acc max' out,
  scan_all d rs max acc = inl (max', out) →
  ∃ cs, out = acc ++ cs ∧ Forall2 read_from rs cs ∧
        max' = foldl Z.max max (created_at <$> rs).
Proof.
  induction rs as [|r rs IH]; intros max acc max' out Hs; simpl in Hs.
  - exists []. simplify_eq. by rewrite app_nil_r.
  - destruct (scan_fault d r); [done|].
    destruct (FromString (amount r)) as [a|e] eqn:Ha; [|done].
    apply IH in Hs as (cs & -> & Hcs & ->). simpl in *.
    eexists (_ :: cs). split; [by rewrite <- app_assoc|]. split.
    + constructor; [|done]. by repeat split.
    + f_equal. destruct (Z.ltb_spec max (created_at r)); lia.
Qed.

(** A row whose amount does not parse ends the loop with an error, however
    many good rows came before it. *)
Lemma scan_all_bad_amount d rs bad e : ∀ max acc,
  bad ∈ rs → FromString (amount bad) = inr e →
  ∃ msg, scan_all d rs max acc = inr msg.
Proof.
  induction rs as [|r rs IH]; intros max acc Hin Hbad.
  - by apply elem_of_nil in Hin.
  - simpl. destruct (scan_fault d r); [eauto|].
    destruct (FromString (amount r)) as [a|e'] eqn:Ha; [|eauto].
    apply elem_of_cons in Hin as [->|Hin]; [congruence|]. by apply IH.
Qed.

Lemma Sorted_take_created n (l : list row) :
  Sorted created_le l → Sorted created_le (take n l).
Proof.
  intros Hl. revert n. induction Hl as [|x l Hl IH Hd]; intros [|n]; simpl;
    try by constructor.
  constructor; [apply IH|]. destruct Hd; destruct n; simpl; by constructor.
Qed.

Lemma select_rows_sorted tbl newer limit : Sorted created_le (select_rows tbl newer limit).
Proof. apply Sorted_take_created, order_by_sorted. Qed.

Lemma select_rows_elem tbl newer limit r :
  r ∈ select_rows tbl newer limit → r ∈ tbl ∧ selected newer r.
Proof.
  unfold microdeposit.select_rows. intros Hr.
  apply elem_of_take in Hr as (i & Hr & _).
  apply list_elem_of_lookup_2 in Hr. rewrite order_by_perm in Hr.
  apply list_elem_of_filter in Hr. tauto.
Qed.

Lemma select_rows_length tbl newer limit :
  length (select_rows tbl newer limit) ≤ Z.to_nat limit.
Proof. unfold microdeposit.select_rows. rewrite length_take. lia. Qed.

(** What a healthy or faulty iteration delivers is a prefix of what the
    statement selects. *)
Lemma Query_prefix r newer limit rows rows_Err :
  Query r newer limit = inl (rows, rows_Err) →
  ∃ n, rows = take n (select_rows (micro_deposits r) newer limit).
Proof.
  unfold microdeposit.Query. destruct (query_fault (db r)); [done|].
  destruct (rows_fault (db r)) as [[n e]|]; intros ?; simplify_eq.
  - by exists n.
  - exists (length (select_rows (micro_deposits r) newer limit)).
    by rewrite take_ge.
Qed.

Lemma Forall2_read_sorted rs cs :
  Forall2 read_from rs cs → Sorted created_le rs → Sorted credit_le cs.
Proof.
  induction 1 as [|r c rs cs Hrc Hall IH]; intros Hs; [constructor|].
  apply Sorted_inv in Hs as [Hs Hd]. constructor; [by apply IH|].
  destruct Hall as [|r' c' rs cs Hrc' _]; constructor.
  apply HdRel_inv in Hd. unfold credit_le, created_le in *.
  destruct Hrc as (_ & _ & _ & _ & ->), Hrc' as (_ & _ & _ & _ & ->). done.
Qed.

Lemma foldl_max_ge (l : list Z) : ∀ m, (m ≤ foldl Z.max m l)%Z ∧ ∀ x, x ∈ l → (x ≤ foldl Z.max m l)%Z.
Proof.
  induction l as [|y l IH]; intros m; simpl.
  - split; [lia|]. intros x Hx. by apply elem_of_nil in Hx.
  - destruct (IH (Z.max m y)) as [H1 H2]. split; [lia|].
    intros x [->|Hx]%elem_of_cons; [lia|auto].
Qed.

Lemma foldl_max_attained (l : list Z) : ∀ m,
  foldl Z.max m l = m ∨ foldl Z.max m l ∈ l.
Proof.
  induction l as [|y l IH]; intros m; simpl; [by left|].
  destruct (IH (Z.max m y)) as [->|Hin].
  - destruct (Z.max_spec m y) as [[_ ->]|[_ ->]]; [right; left|by left].
  - right. by right.
Qed.

(** Strictly ascending creation order on rows. *)
Local Abbreviation created_lt := (λ a b : row, (created_at a < created_at b)%Z).

Lemma strict_created_inj (s : list row) x y :
  StronglySorted created_lt s → x ∈ s → y ∈ s → created_at x = created_at y → x = y.
Proof.
  induction 1 as [|z s Hs IH Hz]; intros Hx Hy Hxy.
  - by apply elem_of_nil in Hx.
  - rewrite Forall_forall in Hz.
    apply elem_of_cons in Hx as [->|Hx]; apply elem_of_cons in Hy as [->|Hy];
      [done| | |by apply IH].
    + apply Hz in Hy. lia.
    + apply Hz in Hx. lia.
Qed.

Lemma strict_created_le (s : list row) : Sorted created_lt s → Sorted created_le s.
Proof.
  induction 1 as [|z s Hs IH Hz]; constructor; [done|].
  destruct Hz; constructor. unfold created_le. lia.
Qed.

(** With no two equal instants the engine has no choice. *)
Lemma order_by_strict (l s : list row) :
  l ≡ₚ s → Sorted created_lt s → order_by l = s.
Proof.
  intros Hp Hs.
  assert (StronglySorted created_lt s) as Hss.
  { apply Sorted_StronglySorted; [|done]. intros a b c. lia. }
  apply (Sorted_unique_strong created_le).
  - intros x1 x2 Hx1 Hx2 H12 H21. rewrite order_by_perm, Hp in Hx1.
    apply (strict_created_inj s); [done..|]. unfold created_le in *. lia.
  - apply order_by_sorted.
  - by apply strict_created_le.
  - by rewrite order_by_perm.
Qed.

(** Moving the watermark up only filters what was selected before. *)
Lemma selected_later (tbl : list row) t0 t :
  (t0 ≤ t)%Z →
  filter (selected t) tbl = filter (λ r, (t < created_at r)%Z) (filter (selected t0) tbl).
Proof.
  intros Ht. rewrite list_filter_filter. apply list_filter_iff.
  intros r. unfold selected. intuition lia.
Qed.

(** A credit is determined by the row it was read from. *)
Lemma read_from_inj r (c c' : UploadableCredit Amount) :
  read_from r c → read_from r c' → c = c'.
Proof.
  destruct c, c'. unfold microdeposit.read_from. simpl.
  intros (H1 & -> & -> & -> & ->) (H2 & -> & -> & -> & ->). congruence.
Qed.

Lemma scan_all_healthy rs cs : ∀ max acc,
  Forall2 read_from rs cs →
  scan_all healthy rs max acc = inl (foldl Z.max max (created_at <$> rs), acc ++ cs).
Proof.
  induction rs as [|r rs IH] in cs |- *; intros max acc Hall.
  - apply Forall2_nil_inv_l in Hall as ->. by rewrite app_nil_r.
  - apply Forall2_cons_inv_l in Hall as (c & cs' & Hc & Hall & ->). simpl.
    pose proof Hc as (Ha & _). rewrite Ha. rewrite (IH cs'); [|done].
    f_equal. f_equal.
    + f_equal. destruct (Z.ltb_spec max (created_at r)); lia.
    + rewrite <- app_assoc. simpl. do 2 f_equal.
      apply (read_from_inj r); [|done]. by repeat split.
Qed.

(** [Next] on a healthy driver when the selected rows have distinct
    instants: the batch is the first [BatchSize] of them in order. *)
Lemma Next_healthy_strict tbl cur s cs :
  filter (selected (newerThan cur)) tbl ≡ₚ s → Sorted created_lt s →
  Forall2 read_from (take (Z.to_nat (BatchSize cur)) s) cs →
  Next (Repo tbl healthy) cur =
    ((cs, None),
     MkCursor (BatchSize cur)
       (foldl Z.max (newerThan cur)
          (created_at <$> take (Z.to_nat (BatchSize cur)) s))).
Proof.
  intros Hp Hs Hcs. unfold microdeposit.Next, microdeposit.Query,
    microdeposit.select_rows. simpl.
  rewrite (order_by_strict _ s Hp Hs).
  by rewrite (scan_all_healthy _ cs).
Qed.

(** Once [Next] comes back empty-handed without moving, it always will. *)
Lemma drain_exhausted r cur e n :
  Next r cur = (([], e), cur) →
  microdeposit.drain FromString order_by n r cur = (replicate n [], cur).
Proof.
  intros Hn. induction n as [|n IH]; simpl; [done|]. by rewrite Hn, IH.
Qed.

(** What one call of [Next] returns, and where it leaves the watermark, for
    every table, driver and engine. *)
Lemma Next_one_batch r cur batch err cur' :
  (0 ≤ BatchSize cur)%Z →
  Next r cur = ((batch, err), cur') →
  (Z.of_nat (length batch) ≤ BatchSize cur)%Z ∧
  Forall (λ c, ∃ row, row ∈ micro_deposits r ∧ selected (newerThan cur) row ∧
                      read_from row c) batch ∧
  Sorted credit_le batch ∧
  BatchSize cur' = BatchSize cur ∧
  (batch = [] → newerThan cur' = newerThan cur) ∧
  (batch ≠ [] → newerThan cur' ∈ (CreatedAt <$> batch) ∧
                Forall (λ c, (CreatedAt c ≤ newerThan cur')%Z) batch).
Proof.
  intros Hsize. unfold microdeposit.Next.
  destruct (prepare_fault (db r)); [intros; simplify_eq; by repeat split|].
  destruct (Query r (newerThan cur) (BatchSize cur)) as [[rows rows_Err]|]
    eqn:Hq; [|intros; simplify_eq; by repeat split].
  destruct (scan_all (db r) rows (newerThan cur) []) as [[max out]|] eqn:Hscan;
    [|intros; simplify_eq; by repeat split].
  intros ?; simplify_eq.
  apply scan_all_inl in Hscan as (cs & -> & Hread & ->). simpl.
  apply Query_prefix in Hq as [n ->].
  set (sel := select_rows (micro_deposits r) (newerThan cur) (BatchSize cur)) in *.
  assert (∀ row, row ∈ take n sel → row ∈ micro_deposits r ∧ selected (newerThan cur) row)
    as Hsel.
  { intros row Hrow. apply (select_rows_elem _ _ (BatchSize cur)).
    apply elem_of_take in Hrow as (i & Hi & _). by eapply list_elem_of_lookup_2. }
  assert (CreatedAt <$> cs = created_at <$> take n sel) as Hkeys.
  { clear -Hread. induction Hread as [|row c rows cs (_&_&_&_&Hc) _ IH];
      [done|]. rewrite !fmap_cons. by rewrite Hc, IH. }
  repeat split.
  - rewrite <- (Forall2_length _ _ _ Hread), length_take.
    pose proof (select_rows_length (micro_deposits r) (newerThan cur) (BatchSize cur)).
    fold sel in H. lia.
  - apply Forall_forall. intros c Hc.
    apply list_elem_of_lookup in Hc as [i Hi].
    destruct (Forall2_lookup_r _ _ _ _ _ Hread Hi) as (row & Hrow & Hrc).
    exists row. apply list_elem_of_lookup_2 in Hrow.
    destruct (Hsel row Hrow). done.
  - apply (Forall2_read_sorted (take n sel)); [done|].
    apply Sorted_take_created, select_rows_sorted.
  - intros ->. apply Forall2_nil_inv_r in Hread. by rewrite Hread.
  - rewrite Hkeys.
    destruct (foldl_max_attained (created_at <$> take n sel) (newerThan cur))
      as [Heq|Hin]; [|done].
    destruct cs as [|c cs]; [done|].
    apply Forall2_cons_inv_r in Hread as (row & rows & _ & _ & Hrows).
    assert (row ∈ take n sel) as Hrow by (rewrite Hrows; left).
    destruct (Hsel row Hrow) as [_ (_ & _ & Hlt)].
    destruct (foldl_max_ge (created_at <$> take n sel) (newerThan cur)) as [_ Hge].
    specialize (Hge (created_at row)). rewrite Heq in Hge.
    assert (created_at row ≤ newerThan cur)%Z; [|lia].
    apply Hge, list_elem_of_fmap. eauto.
  - apply Forall_forall. intros c Hc. rewrite <- Hkeys.
    destruct (foldl_max_ge (CreatedAt <$> cs) (newerThan cur)) as [_ Hge].
    apply Hge, list_elem_of_fmap. eauto.
Qed.

(** Three pending credits at [t1 < t2 < t3], batch size 2, a healthy
    driver; the table may hold them in any order among rows that are not
    selected. *)
Lemma Next_three_credits tbl t0 t1 t2 t3 r1 r2 r3 (c1 c2 c3 : UploadableCredit Amount) :
  filter (selected t0) tbl ≡ₚ [r1; r2; r3] →
  created_at r1 = t1 → created_at r2 = t2 → created_at r3 = t3 →
  (t1 < t2)%Z → (t2 < t3)%Z →
  read_from r1 c1 → read_from r2 c2 → read_from r3 c3 →
  Next (Repo tbl healthy) (GetCursor t0 2) = (([c1; c2], None), MkCursor 2 t2) ∧
  Next (Repo tbl healthy) (MkCursor 2 t2) = (([c3], None), MkCursor 2 t3) ∧
  Next (Repo tbl healthy) (MkCursor 2 t3) = (([], None), MkCursor 2 t3).
Proof.
  intros Hp H1 H2 H3 H12 H23 Hc1 Hc2 Hc3.
  assert (t0 < t1)%Z as H01.
  { assert (r1 ∈ filter (selected t0) tbl) as Hr1 by (rewrite Hp; left).
    apply list_elem_of_filter in Hr1 as [(_ & _ & ?) _]. lia. }
  split; [|split].
  - rewrite (Next_healthy_strict tbl _ [r1; r2; r3] [c1; c2]); simpl.
    + do 2 f_equal. lia.
    + done.
    + repeat constructor; lia.
    + constructor; [done|]. constructor; [done|]. constructor.
  - rewrite (Next_healthy_strict tbl _ [r3] [c3]); simpl.
    + do 2 f_equal. lia.
    + rewrite (selected_later tbl t0 t2) by lia. rewrite Hp.
      rewrite !filter_cons, filter_nil. repeat case_decide; (done || lia).
    + repeat constructor.
    + constructor; [done|]. constructor.
  - rewrite (Next_healthy_strict tbl _ [] []); simpl.
    + done.
    + rewrite (selected_later tbl t0 t3) by lia. rewrite Hp.
      rewrite !filter_cons, filter_nil. repeat case_decide; (done || lia).
    + constructor.
    + constructor.
Qed.

(** Every credit of a batch lies strictly above the watermark the call
    started from and at or below the one it leaves. *)
Lemma Next_between_watermarks r cur batch err cur' :
  (0 ≤ BatchSize cur)%Z →
  Next r cur = ((batch, err), cur') →
  (newerThan cur ≤ newerThan cur')%Z ∧
  Forall (λ c, (newerThan cur < CreatedAt c ≤ newerThan cur')%Z) batch.
Proof.
  intros Hsize Hnext.
  destruct (Next_one_batch r cur batch err cur' Hsize Hnext)
    as (_ & Hrows & _ & _ & Hempty & Hmax).
  assert (Forall (λ c, (newerThan cur < CreatedAt c)%Z) batch) as Hlow.
  { eapply Forall_impl; [exact Hrows|].
    intros c (row & _ & (_ & _ & Hlt) & (_ & _ & _ & _ & Hc)). by rewrite Hc. }
  destruct batch as [|c batch].
  - rewrite Hempty by done. split; [lia|constructor].
  - destruct Hmax as [Hin Hall]; [done|].
    apply list_elem_of_fmap in Hin as (c' & Hc' & Hin).
    rewrite Forall_forall in Hlow, Hall. pose proof (Hlow c' Hin). split; [lia|].
    apply Forall_forall. intros x Hx. pose proof (Hlow x Hx). pose proof (Hall x Hx). lia.
Qed.

(** Against a table nobody else writes to, repeated calls hand out batches
    that ascend: a credit of a later batch is strictly newer than any credit
    of an earlier one, so no credit is handed out twice. *)
Lemma drain_batches_ascend n r : ∀ cur batches cur',
  (0 ≤ BatchSize cur)%Z →
  microdeposit.drain FromString order_by n r cur = (batches, cur') →
  BatchSize cur' = BatchSize cur ∧ (newerThan cur ≤ newerThan cur')%Z ∧
  Forall (Forall (λ c, (newerThan cur < CreatedAt c ≤ newerThan cur')%Z)) batches ∧
  ∀ i j bi bj ci cj,
    i < j → batches !! i = Some bi → batches !! j = Some bj →
    ci ∈ bi → cj ∈ bj → (CreatedAt ci < CreatedAt cj)%Z.
Proof.
  induction n as [|n IH]; intros cur batches cur' Hsize Hdrain; simpl in Hdrain.
  - simplify_eq. repeat split; [lia|constructor|]. intros i j ? ? ? ? _ Hi. done.
  - destruct (Next r cur) as [[batch err] cur1] eqn:Hnext.
    destruct (microdeposit.drain FromString order_by n r cur1) as [rest cur2] eqn:Hrest.
    simplify_eq.
    destruct (Next_one_batch r cur batch err cur1 Hsize Hnext) as (_ & _ & _ & Hb & _).
    destruct (Next_between_watermarks r cur batch err cur1 Hsize Hnext) as [Hle Hbatch].
    destruct (IH cur1 rest cur' ltac:(lia) Hrest) as (Hb' & Hle' & Hrest' & Hasc).
    split; [congruence|]. split; [lia|]. split.
    + constructor.
      * eapply Forall_impl; [exact Hbatch|]. intros c ?. simpl in *. lia.
      * eapply Forall_impl; [exact Hrest'|]. intros b Hbf.
        eapply Forall_impl; [exact Hbf|]. intros c ?. simpl in *. lia.
    + intros i j bi bj ci cj Hij Hi Hj Hci Hcj.
      destruct j as [|j]; [lia|]. simpl in Hj.
      destruct i as [|i]; simpl in Hi.
      * simplify_eq. rewrite Forall_forall in Hbatch. pose proof (Hbatch ci Hci).
        rewrite Forall_forall in Hrest'.
        pose proof (Hrest' bj (list_elem_of_lookup_2 _ _ _ Hj)) as Hbj.
        rewrite Forall_forall in Hbj. pose proof (Hbj cj Hcj). simpl in *. lia.
      * apply (Hasc i j bi bj); [lia|done..].
Qed.

(** C7.  Each call of [Next] returns at most [BatchSize] credits, each read
    from an unmerged, undeleted row created strictly after the watermark,
    in ascending creation order; afterwards the watermark is the largest
    creation instant of the batch, or is unchanged when the batch is empty.
    With three pending credits at [t1 < t2 < t3] and batch size 2, the first
    call returns the first two and moves the watermark to [t2], the second
    returns the third and moves it to [t3], the third returns nothing and
    leaves it at [t3]. *)
Theorem Next_batch_and_watermark :
  (∀ r cur batch err cur',
     (0 ≤ BatchSize cur)%Z →
     Next r cur = ((batch, err), cur') →
     (Z.of_nat (length batch) ≤ BatchSize cur)%Z ∧
     Forall (λ c, ∃ row, row ∈ micro_deposits r ∧ selected (newerThan cur) row ∧
                         read_from row c) batch ∧
     Sorted credit_le batch ∧
     BatchSize cur' = BatchSize cur ∧
     (batch = [] → newerThan cur' = newerThan cur) ∧
     (batch ≠ [] → newerThan cur' ∈ (CreatedAt <$> batch) ∧
                   Forall (λ c, (CreatedAt c ≤ newerThan cur')%Z) batch))
  ∧
  (∀ tbl t0 t1 t2 t3 r1 r2 r3 (c1 c2 c3 : UploadableCredit Amount),
     filter (selected t0) tbl ≡ₚ [r1; r2; r3] →
     created_at r1 = t1 → created_at r2 = t2 → created_at r3 = t3 →
     (t1 < t2)%Z → (t2 < t3)%Z →
     read_from r1 c1 → read_from r2 c2 → read_from r3 c3 →
     Next (Repo tbl healthy) (GetCursor t0 2) = (([c1; c2], None), MkCursor 2 t2) ∧
     Next (Repo tbl healthy) (MkCursor 2 t2) = (([c3], None), MkCursor 2 t3) ∧
     Next (Repo tbl healthy) (MkCursor 2 t3) = (([], None), MkCursor 2 t3)).
Proof.
  split.
  - intros r cur batch err cur'. apply Next_one_batch.
  - intros tbl t0 t1 t2 t3 r1 r2 r3 c1 c2 c3. apply Next_three_credits.
Qed.

(** C9.  If a row the query delivers carries an amount that does not parse,
    [Next] returns no batch and an error, and the cursor stays where it
    was: the row is not skipped. *)
Theorem Next_malformed_amount_is_fatal r cur rows rows_Err bad e :
  Query r (newerThan cur) (BatchSize cur) = inl (rows, rows_Err) →
  bad ∈ rows →
  FromString (amount bad) = inr e →
  ∃ msg, Next r cur = (([], Some msg), cur).
Proof using Type.
  intros Hq Hin Hbad. unfold microdeposit.Next.
  destruct (prepare_fault (db r)); [eauto|]. rewrite Hq.
  destruct (scan_all_bad_amount (db r) rows bad e (newerThan cur) [] Hin Hbad)
    as [msg ->]. eauto.
Qed.

End CursorFacts.

Section CursorTies.

Import microdeposit sample.

Variable order_by : list row → list row.
Context `{!OrderBy order_by}.

Local Abbreviation Next := (microdeposit.Next parse_amount order_by).

(** The first call hands out one of the twins and moves the watermark to
    their common instant. *)
Lemma twins_first_call :
  ∃ c, Next (Repo twins healthy) (GetCursor 0 1) = (([c], None), MkCursor 1 5).
Proof.
  unfold microdeposit.Next, microdeposit.Query, microdeposit.select_rows. simpl.
  assert (filter (selected 0) twins = twins) as -> by reflexivity.
  pose proof (order_by_perm twins) as Hp. symmetry in Hp.
  apply Permutation_length_2_inv in Hp as [-> | ->]; simpl; eauto.
Qed.

(** From there nothing is selected any more. *)
Lemma twins_later_calls :
  Next (Repo twins healthy) (MkCursor 1 5) = (([], None), MkCursor 1 5).
Proof.
  unfold microdeposit.Next, microdeposit.Query, microdeposit.select_rows. simpl.
  assert (filter (selected 5) twins = []) as -> by reflexivity.
  pose proof (order_by_perm []) as Hp. apply Permutation_nil_r in Hp.
  by rewrite Hp.
Qed.

(** C2.  Two pending credits share a creation instant and the batch size is
    1: both are selected at the start, yet however often [Next] is called,
    and whatever order the engine gives to equal instants, only one of them
    is ever returned. *)
Theorem Next_skips_credit_tied_at_batch_boundary (n : nat) :
  (∀ row, row ∈ twins → selected 0 row) ∧
  ∃ c, (microdeposit.drain parse_amount order_by (S n)
          (Repo twins healthy) (GetCursor 0 1)).1 = [c] :: replicate n [].
Proof.
  split.
  - intros row Hrow. unfold twins in Hrow.
    rewrite !elem_of_cons, elem_of_nil in Hrow.
    destruct Hrow as [->|[->|[]]]; repeat split; simpl; lia.
  - destruct twins_first_call as [c Hc]. exists c.
    cbn [microdeposit.drain]. rewrite Hc.
    by rewrite (drain_exhausted _ _ _ _ None n twins_later_calls).
Qed.

End CursorTies.

Section CursorWitnesses.

Import microdeposit sample.

Lemma Next_batch_and_watermark_witness :
  let repo := Repo three_pending healthy in
  let next := Next parse_amount sort_by_created_at repo in
  (Z.of_nat (length [credit "d1" 10; credit "d2" 20]) ≤ 2)%Z ∧
  next (GetCursor 0 2) = (([credit "d1" 10; credit "d2" 20], None), MkCursor 2 20) ∧
  next (MkCursor 2 20) = (([credit "d3" 30], None), MkCursor 2 30) ∧
  next (MkCursor 2 30) = (([], None), MkCursor 2 30).
Proof.
  intros repo next.
  destruct (Next_batch_and_watermark parse_amount sort_by_created_at) as [Hone Hthree].
  split.
  - refine (proj1 (Hone repo (GetCursor 0 2) _ None (MkCursor 2 20) _ _));
      [simpl; lia|]. vm_compute. reflexivity.
  - apply (Hthree three_pending 0 10 20 30
             (credit_row "d1" 10) (credit_row "d2" 20) (credit_row "d3" 30))%Z;
      try reflexivity; try lia; try (by repeat split).
    change (filter (selected 0) three_pending)
      with [credit_row "d3" 30; credit_row "d1" 10; credit_row "d2" 20].
    apply (Permutation_cons_append [credit_row "d1" 10; credit_row "d2" 20]).
Defined.

Lemma Next_malformed_amount_is_fatal_witness :
  ∃ msg, Next parse_amount sort_by_created_at (Repo one_malformed healthy) (GetCursor 0 2)
         = (([], Some msg), GetCursor 0 2).
Proof.
  apply (Next_malformed_amount_is_fatal parse_amount sort_by_created_at
           (Repo one_malformed healthy) (GetCursor 0 2)
           (select_rows sort_by_created_at one_malformed 0 2) None
           {| depository_id := "d2"; user_id := "user"; amount := "0.07 dollars";
              file_id := ""; created_at := 20; deleted_at := None;
              merged_filename := None |}
           "invalid Amount format").
  - reflexivity.
  - vm_compute. right. left.
  - reflexivity.
Defined.

Lemma Next_skips_credit_tied_at_batch_boundary_witness :
  ∃ c, (drain parse_amount sort_by_created_at 3 (Repo twins healthy) (GetCursor 0 1)).1
       = [[c]; []; []].
Proof.
  apply (Next_skips_credit_tied_at_batch_boundary sort_by_created_at 2).
Defined.

End CursorWitnesses.

(* ===================================================================== *)
(** * Properties of the transfer handlers                                 *)
(* ===================================================================== *)

Section RequestFacts.

Import transfers.

Context `{Model}.

Lemma append_nil_r (s : string) : s +:+ "" = s.
Proof.
  induction s as [|a s IH]; [done|].
  change (String a s +:+ "") with (String a (s +:+ "")). by rewrite IH.
Qed.

Lemma append_assoc (s1 s2 s3 : string) : (s1 +:+ s2) +:+ s3 = s1 +:+ s2 +:+ s3.
Proof.
  induction s1 as [|a s1 IH]; [done|].
  change (String a (s1 +:+ s2) +:+ s3 = String a (s1 +:+ s2 +:+ s3)).
  change (String a ((s1 +:+ s2) +:+ s3) = String a (s1 +:+ s2 +:+ s3)).
  by rewrite IH.
Qed.

(** Every element of a joined list can be read off the result. *)
Lemma strings_Join_contains (names : list string) (sep name : string) :
  name ∈ names → ∃ pre post, strings_Join names sep = pre +:+ name +:+ post.
Proof.
  induction names as [|e rest IH]; intros Hin.
  - by apply elem_of_nil in Hin.
  - apply elem_of_cons in Hin as [->|Hin].
    + destruct rest as [|e' rest].
      * exists "", "". by rewrite append_nil_r.
      * exists "", (sep +:+ strings_Join (e' :: rest) sep). done.
    + destruct (IH Hin) as (pre & post & Hj).
      destruct rest as [|e' rest]; [by apply elem_of_nil in Hin|].
      exists (e +:+ sep +:+ pre), post.
      change (strings_Join (e :: e' :: rest) sep)
        with (e +:+ sep +:+ strings_Join (e' :: rest) sep).
      by rewrite Hj, !append_assoc.
Qed.

(** The slice [missing] holds the names of the empty required fields, in
    the order of the checks. *)
Lemma missing_of_required (r : transferRequest) :
  missing_of r = (filter (λ p, p.2 = "") (required_fields r)).*1.
Proof.
  unfold missing_of, check, required_fields.
  rewrite !filter_cons, filter_nil. simpl.
  repeat case_decide; done.
Qed.

(** C8.  A request with one or more of the six required fields empty fails
    validation with one error whose text lists the JSON name of every empty
    field, not only the first. *)
Theorem missingFields_names_every_missing_field (r : transferRequest) :
  (∃ name, (name, "") ∈ required_fields r) →
  ∃ names,
    missingFields r
      = Some ("missing " +:+ strings_Join names ", " +:+ " JSON field(s)") ∧
    (∀ name, name ∈ names ↔ (name, "") ∈ required_fields r) ∧
    (∀ name, (name, "") ∈ required_fields r →
       ∃ pre post, strings_Join names ", " = pre +:+ name +:+ post).
Proof.
  intros [name0 Hname0].
  assert (∀ name, name ∈ missing_of r ↔ (name, "") ∈ required_fields r) as Hiff.
  { intros name. rewrite missing_of_required, list_elem_of_fmap. split.
    - intros ([n v] & -> & [Hv Hin]%list_elem_of_filter). simpl in *. by subst.
    - intros Hin. exists (name, ""). split; [done|].
      by apply list_elem_of_filter. }
  exists (missing_of r). split; [|split; [done|]].
  - unfold missingFields. case_decide as Hlen; [done|].
    apply Hiff in Hname0. destruct (missing_of r); [|simpl in Hlen; lia].
    by apply elem_of_nil in Hname0.
  - intros name Hname. apply strings_Join_contains. by apply Hiff.
Qed.

End RequestFacts.

Section ObjectFacts.

Import transfers.

Context `{Model}.

(** C10.  [getTransferObjects] returns either the four objects and no error
    or no object and an error; when it returns the objects, both
    depositories are verified and receiver, originator and both depositories
    passed [Validate]. *)
Theorem getTransferObjects_all_or_nothing
    (req : transferRequest) (userID : string) (depRepo : depository_Repository)
    (receiverRepository : receivers_Repository) (origRepo : originators_Repository)
    (w : World) :
  let objects := (getTransferObjects req userID depRepo receiverRepository origRepo w).1.1 in
  (∃ receiver receiverDep orig origDep,
     objects = (Some receiver, Some receiverDep, Some orig, Some origDep, None) ∧
     Depository_Status receiverDep = DepositoryVerified ∧
     Depository_Status origDep = DepositoryVerified ∧
     Receiver_Validate receiver = None ∧
     Originator_Validate orig = None ∧
     Depository_Validate receiverDep = None ∧
     Depository_Validate origDep = None)
  ∨ (∃ err, objects = (None, None, None, None, Some err)).
Proof.
  unfold getTransferObjects, none_but.
  repeat (case_match; simpl; eauto).
  left. eexists _, _, _, _. repeat split; eauto; by apply dec_stable.
Qed.

End ObjectFacts.

Section HandlerFacts.

Import transfers.

Context `{Externals}.

(** Follows one branch of the handler monad further: the innermost
    undecided [match] of the goal is decided. *)
Ltac run_step :=
  match goal with
  | |- context [match ?x with _ => _ end] =>
      lazymatch x with
      | context [match _ with _ => _ end] => fail
      | _ => destruct x eqn:?; simpl
      end
  end.

Ltac run_handler :=
  unfold create_one, getTransferObjects, none_but, bind, call, quiet, lift,
    or_problem, respond, ret;
  repeat run_step.

(** One turn of the loop: the calls come in pipeline order; the turn hands
    the request on exactly when all of them succeeded, and otherwise ends
    the handler with a problem. *)
Lemma create_one_spec c responder achClient key remoteIP req s :
  match create_one c responder achClient key remoteIP req s with
  | (res, t, s') =>
      recorder s' = recorder s ∧ in_pipeline_order c t ∧
      match res with
      | Continue _ => completed c t
      | Return_ resp => (∃ err, resp = Problem err) ∧ ¬ completed c t
      end
  end.
Proof.
  unfold in_pipeline_order, completed, pipeline, create_one.
  destruct (accountsClient c), (customersClient c);
    run_handler;
    (split; [reflexivity|]);
    (split; [split; [by eexists|repeat constructor]|]);
    lazymatch goal with
    | |- _ ∧ ¬ _ =>
        split; [by eexists|]; intros [Hk Hs];
        first [ discriminate Hk
              | rewrite !Forall_cons in Hs; unfold succeeded in Hs; simpl in Hs;
                by destruct_and! ]
    | |- _ => split; [reflexivity|repeat constructor]
    end.
Qed.

(** The loop: one pipeline walk per request, in request order; it goes on
    to the next request only after a completed walk, and when a walk does
    not complete the handler returns with that problem. *)
Lemma create_each_spec c responder achClient key remoteIP requests : ∀ s,
  match create_each c responder achClient key remoteIP requests s with
  | (res, t, s') =>
      recorder s' = recorder s ∧
      ∃ segs, t = concat segs ∧ Forall (in_pipeline_order c) segs ∧
        match res with
        | Continue requests' =>
            length requests' = length requests ∧
            length segs = length requests ∧ Forall (completed c) segs
        | Return_ resp =>
            (∃ err, resp = Problem err) ∧
            ∃ done last, segs = done ++ [last] ∧ length done < length requests ∧
                         Forall (completed c) done ∧ ¬ completed c last
        end
  end.
Proof.
  induction requests as [|req rest IH]; intros s.
  - simpl. split; [done|]. exists []. repeat split; constructor.
  - cbn [create_each]. unfold bind, ret.
    pose proof (create_one_spec c responder achClient key remoteIP req s) as H1.
    destruct (create_one c responder achClient key remoteIP req s) as [[res1 t1] s1].
    destruct H1 as (Hrec1 & Hord1 & Hres1).
    destruct res1 as [req'|resp].
    + specialize (IH s1).
      destruct (create_each c responder achClient key remoteIP rest s1)
        as [[res2 t2] s2].
      destruct IH as (Hrec2 & segs & -> & Hord2 & Hres2).
      destruct res2 as [rest'|resp]; simpl.
      * destruct Hres2 as (Hlen1 & Hlen2 & Hdone).
        split; [congruence|]. exists (t1 :: segs).
        rewrite app_nil_r. repeat split; simpl; auto.
      * destruct Hres2 as (Hprob & done & last & -> & Hlen & Hdone & Hlast).
        split; [congruence|]. exists (t1 :: done ++ [last]).
        repeat split; simpl; auto.
        exists (t1 :: done), last. repeat split; simpl; auto. lia.
    + destruct Hres1 as (Hprob & Hnot).
      split; [done|]. exists [t1]. simpl. rewrite app_nil_r.
      repeat split; auto.
      exists [], t1. repeat split; simpl; auto. lia.
Qed.

Lemma bind_Continue {A B} (m : M A) (f : A → M B) s a t1 s1 :
  m s = (Continue a, t1, s1) →
  bind m f s = let '(r, t2, s2) := f a s1 in (r, t1 ++ t2, s2).
Proof. intros Hm. unfold bind. by rewrite Hm. Qed.

Lemma bind_Return {A B} (m : M A) (f : A → M B) s resp t1 s1 :
  m s = (Return_ resp, t1, s1) → bind m f s = (Return_ resp, t1, s1).
Proof. intros Hm. unfold bind. by rewrite Hm. Qed.

(** The responder: a key seen before ends the request at once and changes
    nothing; otherwise the handler goes on, the key now recorded and the
    world untouched. *)
Lemma NewResponder_spec (r : Request) (s : State) :
  (x_idempotency_key r ≠ "" ∧ x_idempotency_key r ∈ recorder s ∧
   NewResponder r s
     = (Return_ PreconditionFailed, [SeenBefore_ (x_idempotency_key r) true], s))
  ∨
  ((x_idempotency_key r = "" ∨ x_idempotency_key r ∉ recorder s) ∧
   ∃ s1, world s1 = world s ∧
     NewResponder r s =
       (Continue {| XUserID := x_user_id r; XRequestID := x_request_id r |},
        (if decide (x_idempotency_key r = "") then []
         else [SeenBefore_ (x_idempotency_key r) false]), s1)).
Proof.
  unfold NewResponder, route.SeenBefore. simpl.
  destruct (decide (x_idempotency_key r = "")) as [Hk|Hk].
  - right. split; [by left|]. by exists s.
  - destruct (bool_decide_reflect (x_idempotency_key r ∈ recorder s)) as [Hin|Hin].
    + left. repeat split; [done..|]. do 2 f_equal. destruct s as [rec w]. simpl in *.
      f_equal. set_solver.
    + right. split; [by right|]. eexists. split; [|reflexivity]. done.
Qed.

(** The key the file is uploaded under: the header, or a fresh ID. *)
Lemma upload_key_spec (r : Request) (s1 : State) :
  ∃ key s2,
    (if decide (x_idempotency_key r = "") then quiet base_ID
     else ret (x_idempotency_key r)) s1 = (Continue key, [], s2).
Proof.
  case_decide; unfold quiet, lift, ret; [|by eauto].
  destruct (base_ID (world s1)); eauto.
Qed.

(** The whole handler.  Either the key was seen before and nothing happens;
    or the trace is the idempotency check (when there is a key), then one
    pipeline walk per request handled, then at most one call that persists
    the transfers, made only after every request's walk completed. *)
Lemma createUserTransfers_spec c r s :
  match serve (createUserTransfers c r) s with
  | (resp, t, s') =>
      (x_idempotency_key r ≠ "" ∧ x_idempotency_key r ∈ recorder s ∧
       resp = PreconditionFailed ∧
       t = [SeenBefore_ (x_idempotency_key r) true] ∧ s' = s)
      ∨
      ((x_idempotency_key r = "" ∨ x_idempotency_key r ∉ recorder s) ∧
       ∃ segs persist,
         t = (if decide (x_idempotency_key r = "") then []
              else [SeenBefore_ (x_idempotency_key r) false])
             ++ concat segs ++ persist ∧
         Forall (in_pipeline_order c) segs ∧
         ((∃ err, readTransferRequests (body r) = inr err ∧
                  segs = [] ∧ persist = [] ∧ resp = Problem err)
          ∨ (∃ requests done last err,
               readTransferRequests (body r) = inl requests ∧
               segs = done ++ [last] ∧ length done < length requests ∧
               Forall (completed c) done ∧ ¬ completed c last ∧
               persist = [] ∧ resp = Problem err)
          ∨ (∃ requests err,
               readTransferRequests (body r) = inl requests ∧
               length segs = length requests ∧ Forall (completed c) segs ∧
               persist = [CreateUserTransfers_ (x_user_id r) (length requests) err] ∧
               match err with
               | Some e => resp = Problem e
               | None => ∃ transfers, resp = writeResponse (length requests) transfers
               end)))
  end.
Proof.
  unfold createUserTransfers, serve.
  destruct (NewResponder_spec r s) as [(Hne & Hin & Hrun)|(Hfresh & s1 & Hw & Hrun)].
  { rewrite (bind_Return _ _ _ _ _ _ Hrun). left. done. }
  rewrite (bind_Continue _ _ _ _ _ _ Hrun).
  set (idem := if decide (x_idempotency_key r = "") then [] else _).
  destruct (readTransferRequests (body r)) as [requests|err] eqn:Hread.
  2: { unfold respond. simpl. right. split; [done|]. exists [], [].
       rewrite !app_nil_r. repeat split; [constructor|]. left. eauto. }
  destruct (upload_key_spec r s1) as (key & s2 & Hkey).
  rewrite (bind_Continue _ _ _ _ _ _ Hkey).
  pose proof (create_each_spec c {| XUserID := x_user_id r; XRequestID := x_request_id r |}
                (achClientFactory c (x_user_id r)) key (remote_addr r) requests s2)
    as Heach. simpl in *.
  destruct (create_each c {| XUserID := x_user_id r; XRequestID := x_request_id r |}
                (achClientFactory c (x_user_id r)) key (remote_addr r) requests s2)
    as [[res t] s3] eqn:Hrun_each.
  destruct Heach as (_ & segs & -> & Hord & Hres).
  destruct res as [requests'|resp].
  - rewrite (bind_Continue _ _ _ _ _ _ Hrun_each).
    destruct Hres as (Hlen' & Hlen & Hdone).
    unfold bind, call, lift, respond. rewrite Hlen'.
    destruct (repo_createUserTransfers (transferRepo c) (x_user_id r) requests' (world s3))
      as [[transfers|err] w]; simpl; right; (split; [done|]);
      eexists segs, _; (split; [reflexivity|]); (split; [done|]);
      right; right; eexists requests, _; repeat split; simpl; eauto.
  - rewrite (bind_Return _ _ _ _ _ _ Hrun_each). simpl.
    destruct Hres as ([err ->] & done & last & -> & Hlen & Hdone & Hlast).
    right. split; [done|]. exists (done ++ [last]), []. rewrite !app_nil_r.
    repeat split; [done|]. right. left. exists requests, done, last, err. done.
Qed.

(** The [i]-th event of a walk is the [i]-th call of the pipeline, and it
    succeeded unless it is the walk's last. *)
Lemma walk_lookup c t i e :
  in_pipeline_order c t → t !! i = Some e →
  pipeline c !! i = Some (kind e) ∧ (S i < length t → succeeded e).
Proof.
  intros [[k Hk] Hs] He. split.
  - rewrite Hk. apply lookup_app_l_Some. by rewrite list_lookup_fmap, He.
  - intros Hlt. apply (Forall_lookup_1 _ _ i e Hs).
    rewrite lookup_take_lt by lia. done.
Qed.

(** In a walk the limit check is the fifth call and comes right after the
    four lookups, all of which succeeded. *)
Lemma limit_after_entities c t i e :
  in_pipeline_order c t → t !! i = Some e → kind e = KAllowTransfer →
  i = 4 ∧
  ∃ a u1 b u2 o u3 d u4,
    take 4 t = [GetUserReceiver_ a u1 None; GetUserDepository_ b u2 None;
                GetUserOriginator_ o u3 None; GetUserDepository_ d u4 None].
Proof.
  intros Hord He Hkind.
  destruct (walk_lookup c t i e Hord He) as [Hp _]. rewrite Hkind in Hp.
  assert (i = 4) as ->.
  { unfold pipeline in Hp.
    destruct (accountsClient c), (customersClient c); simpl in Hp;
      do 13 (destruct i as [|i]; [try discriminate Hp; done|simpl in Hp]);
      discriminate Hp. }
  split; [done|].
  destruct t as [|e0 [|e1 [|e2 [|e3 [|e4 t]]]]]; try discriminate He.
  destruct (walk_lookup c _ 0 e0 Hord eq_refl) as [Hk0 Hs0].
  destruct (walk_lookup c _ 1 e1 Hord eq_refl) as [Hk1 Hs1].
  destruct (walk_lookup c _ 2 e2 Hord eq_refl) as [Hk2 Hs2].
  destruct (walk_lookup c _ 3 e3 Hord eq_refl) as [Hk3 Hs3].
  unfold pipeline, succeeded in *. simpl in *.
  destruct e0; try discriminate Hk0. destruct e1; try discriminate Hk1.
  destruct e2; try discriminate Hk2. destruct e3; try discriminate Hk3.
  simpl in *. rewrite Hs0, Hs1, Hs2, Hs3 by lia. by eexists _, _, _, _, _, _, _, _.
Qed.

(** In a walk the ledger post and the file upload come after the limit
    check, and the limit check passed. *)
Lemma effects_after_limit c t i e :
  in_pipeline_order c t → t !! i = Some e →
  kind e = KPostAccountTransaction ∨ kind e = KCreateFile →
  4 < i ∧ ∃ userID, t !! 4 = Some (AllowTransfer_ userID None).
Proof.
  intros Hord He Hkind.
  destruct (walk_lookup c t i e Hord He) as [Hp _].
  assert (4 < i) as Hi.
  { unfold pipeline in Hp.
    destruct Hkind as [Hkind|Hkind]; rewrite Hkind in Hp;
      destruct (accountsClient c), (customersClient c); simpl in Hp;
      do 5 (destruct i as [|i]; [discriminate Hp|simpl in Hp]); lia. }
  split; [done|].
  assert (i < length t) as Hlen by (by eapply lookup_lt_Some).
  destruct (lookup_lt_is_Some_2 t 4) as [e4 He4]; [lia|].
  destruct (walk_lookup c t 4 e4 Hord He4) as [Hk4 Hs4].
  unfold pipeline, succeeded in *. simpl in Hk4.
  destruct e4; try discriminate Hk4. simpl in Hs4. rewrite Hs4 in He4 by lia. eauto.
Qed.

Lemma asTransfer_Pending (req : transferRequest) transferID now :
  Status (asTransfer req transferID now) = TransferPending.
Proof. done. Qed.

(** C1 (as the code has it).  The idempotency check comes first.  Then, for
    each request in turn, the calls follow the pipeline: the four entity
    lookups, then the limit check, then the ledger post, the customer and
    disclaimer checks, the construction, upload and check of the file, and
    the audit event, each made only after the one before it succeeded.  So
    the limit check runs right after the four lookups have succeeded, and a
    ledger post or file upload happens only after the limit check has
    passed.  The transfers are persisted by one call after the walks of all
    requests completed, and a 200 answer means that call succeeded; the
    transfer built for the file has status Pending. *)
Theorem createUserTransfers_stage_order c r s :
  let '(resp, t, _) := serve (createUserTransfers c r) s in
  (∃ idem segs persist,
     t = idem ++ concat segs ++ persist ∧
     (idem = [] ∨ ∃ seen, idem = [SeenBefore_ (x_idempotency_key r) seen]) ∧
     Forall (λ seg,
       in_pipeline_order c seg ∧
       (∀ i e, seg !! i = Some e → kind e = KAllowTransfer →
          i = 4 ∧
          ∃ a u1 b u2 o u3 d u4,
            take 4 seg = [GetUserReceiver_ a u1 None; GetUserDepository_ b u2 None;
                          GetUserOriginator_ o u3 None; GetUserDepository_ d u4 None]) ∧
       (∀ i e, seg !! i = Some e →
          kind e = KPostAccountTransaction ∨ kind e = KCreateFile →
          4 < i ∧ ∃ userID, seg !! 4 = Some (AllowTransfer_ userID None))) segs ∧
     (persist = [] ∨
      Forall (completed c) segs ∧
      ∃ err, persist = [CreateUserTransfers_ (x_user_id r) (length segs) err]) ∧
     (∀ rendered, resp = StatusOK rendered →
        persist = [CreateUserTransfers_ (x_user_id r) (length segs) None])) ∧
  (∀ req transferID now, Status (asTransfer req transferID now) = TransferPending).
Proof.
  pose proof (createUserTransfers_spec c r s) as Hspec.
  destruct (serve (createUserTransfers c r) s) as [[resp t] s'].
  split; [|done].
  assert (∀ segs, Forall (in_pipeline_order c) segs →
    Forall (λ seg,
       in_pipeline_order c seg ∧
       (∀ i e, seg !! i = Some e → kind e = KAllowTransfer →
          i = 4 ∧
          ∃ a u1 b u2 o u3 d u4,
            take 4 seg = [GetUserReceiver_ a u1 None; GetUserDepository_ b u2 None;
                          GetUserOriginator_ o u3 None; GetUserDepository_ d u4 None]) ∧
       (∀ i e, seg !! i = Some e →
          kind e = KPostAccountTransaction ∨ kind e = KCreateFile →
          4 < i ∧ ∃ userID, seg !! 4 = Some (AllowTransfer_ userID None))) segs)
    as Hwalks.
  { intros segs Hsegs. eapply Forall_impl; [exact Hsegs|]. intros seg Hseg.
    split; [done|]. split; intros i e He Hk.
    - by eapply limit_after_entities.
    - by eapply effects_after_limit. }
  destruct Hspec as [(Hne & Hin & -> & -> & _)|(Hfresh & segs & persist & -> & Hord & Hcases)].
  - exists [SeenBefore_ (x_idempotency_key r) true], [], [].
    repeat split; [eauto|constructor|by left|done].
  - exists (if decide (x_idempotency_key r = "") then []
            else [SeenBefore_ (x_idempotency_key r) false]), segs, persist.
    split; [done|]. split; [case_decide; eauto|]. split; [by apply Hwalks|].
    destruct Hcases as [(err & _ & -> & -> & ->)
                       |[(requests & fin & lst & err & _ & -> & _ & _ & _ & -> & ->)
                        |(requests & err & _ & Hlen & Hdone & -> & Hresp)]].
    + split; [by left|done].
    + split; [by left|done].
    + rewrite <- Hlen. split; [right; eauto|].
      intros rendered ->. destruct err as [e|]; [done|done].
Qed.

(** C3.  A body that is an array of one request is answered, when the
    answer is 200, with a bare object and not with a one-element array:
    [writeResponse] looks at the number of requests, not at the shape of the
    body. *)
Theorem array_of_one_renders_bare_object c r s req rendered :
  body r = BodyArray [req] →
  (serve (createUserTransfers c r) s).1.1 = StatusOK rendered →
  ∃ t, rendered = Some (RenderObject t).
Proof.
  intros Hbody. pose proof (createUserTransfers_spec c r s) as Hspec.
  destruct (serve (createUserTransfers c r) s) as [[resp t] s']. simpl.
  intros ->.
  destruct Hspec as [(_ & _ & Hr & _)|(_ & segs & persist & _ & _ & Hcases)];
    [discriminate Hr|].
  destruct Hcases as [(err & _ & _ & _ & Hr)
                     |[(requests & fin & lst & err & _ & _ & _ & _ & _ & _ & Hr)
                      |(requests & err & Hread & _ & _ & _ & Hresp)]];
    [discriminate Hr|discriminate Hr|].
  rewrite Hbody in Hread. simpl in Hread. simplify_eq.
  destruct err as [e|]; [done|]. destruct Hresp as [transfers Hresp].
  unfold writeResponse in Hresp. simpl in Hresp.
  destruct transfers as [|tr transfers]; simplify_eq. eauto.
Qed.

(** A walk makes pipeline calls only: it never asks the recorder, persists
    or deletes. *)
Lemma walk_kinds c t e :
  in_pipeline_order c t → e ∈ t →
  kind e ≠ KSeenBefore ∧ kind e ≠ KCreateUserTransfers ∧ kind e ≠ KDeleteFile.
Proof.
  intros Hord [i He]%list_elem_of_lookup.
  destruct (walk_lookup c t i e Hord He) as [Hp _].
  apply list_elem_of_lookup_2 in Hp. unfold pipeline in Hp.
  destruct (accountsClient c), (customersClient c); simpl in Hp;
    rewrite ?elem_of_cons, elem_of_nil in Hp;
    repeat split; intros Hk; rewrite Hk in Hp; naive_solver.
Qed.

Lemma elem_of_concat {A} (x : A) (ls : list (list A)) :
  x ∈ concat ls → ∃ l, x ∈ l ∧ l ∈ ls.
Proof.
  rewrite list_elem_of_In, in_concat. intros (l & Hl & Hx).
  exists l. by rewrite !list_elem_of_In.
Qed.

Lemma SeenBefore_all_lookup keys : ∀ seen i k,
  keys !! i = Some k →
  (route.SeenBefore_all keys seen).1 !! i
    = Some (bool_decide (k ∈ seen ∨ k ∈ take i keys)).
Proof.
  induction keys as [|a keys IH]; intros seen i k Hk; [done|].
  simpl. specialize (IH ({[a]} ∪ seen)).
  destruct (route.SeenBefore_all keys ({[a]} ∪ seen)) as [bs seen'']. simpl.
  destruct i as [|i]; simpl in *.
  - simplify_eq. f_equal. apply bool_decide_ext. set_solver.
  - rewrite (IH i k Hk). f_equal. apply bool_decide_ext. set_solver.
Qed.

(** C6.  The recorder answers false for a key it has not recorded and
    records it; it answers true for a recorded key; in a run of calls from
    an empty store a call is answered true exactly when its key occurred
    earlier in the run.  When the key of a request was seen before,
    [createUserTransfers] answers "precondition failed" and does nothing
    else: the trace holds the recorder's answer alone and the state is
    unchanged; and a true answer never occurs in any other trace. *)
Theorem SeenBefore_rejects_duplicate_request :
  (∀ k seen, k ∉ seen → route.SeenBefore k seen = (false, {[k]} ∪ seen)) ∧
  (∀ k seen, k ∈ seen → route.SeenBefore k seen = (true, seen)) ∧
  (∀ keys i k, keys !! i = Some k →
     (route.SeenBefore_all keys ∅).1 !! i = Some (bool_decide (k ∈ take i keys))) ∧
  (∀ c r s,
     x_idempotency_key r ≠ "" → x_idempotency_key r ∈ recorder s →
     serve (createUserTransfers c r) s
       = (PreconditionFailed, [SeenBefore_ (x_idempotency_key r) true], s)) ∧
  (∀ c r s k,
     SeenBefore_ k true ∈ (serve (createUserTransfers c r) s).1.2 →
     serve (createUserTransfers c r) s = (PreconditionFailed, [SeenBefore_ k true], s)).
Proof.
  split; [|split; [|split; [|split]]].
  - intros k seen Hk. unfold route.SeenBefore. by rewrite bool_decide_eq_false_2.
  - intros k seen Hk. unfold route.SeenBefore. rewrite bool_decide_eq_true_2 by done.
    f_equal. set_solver.
  - intros keys i k Hk. rewrite (SeenBefore_all_lookup keys ∅ i k Hk).
    f_equal. apply bool_decide_ext. set_solver.
  - intros c r s Hne Hin. pose proof (createUserTransfers_spec c r s) as Hspec.
    destruct (serve (createUserTransfers c r) s) as [[resp t] s'].
    destruct Hspec as [(_ & _ & -> & -> & ->)|([Hk|Hk] & _)]; done.
  - intros c r s k. pose proof (createUserTransfers_spec c r s) as Hspec.
    destruct (serve (createUserTransfers c r) s) as [[resp t] s']. simpl.
    destruct Hspec as [(_ & _ & -> & -> & ->)
                      |(_ & segs & persist & -> & Hord & Hcases)].
    + intros Hin. apply list_elem_of_singleton in Hin. by simplify_eq.
    + intros Hin. exfalso.
      apply elem_of_app in Hin as [Hin|Hin].
      { case_decide; [by apply elem_of_nil in Hin|].
        apply list_elem_of_singleton in Hin. discriminate Hin. }
      apply elem_of_app in Hin as [Hin|Hin].
      { apply elem_of_concat in Hin as (seg & Hin & Hseg).
        rewrite Forall_forall in Hord.
        destruct (walk_kinds c seg _ (Hord seg Hseg) Hin) as [Hk _]. by apply Hk. }
      destruct Hcases as [(err & _ & _ & -> & _)
                         |[(requests & fin & lst & err & _ & _ & _ & _ & _ & -> & _)
                          |(requests & err & _ & _ & _ & -> & _)]].
      * by apply elem_of_nil in Hin.
      * by apply elem_of_nil in Hin.
      * apply list_elem_of_singleton in Hin. discriminate Hin.
Qed.

(** The loop stops at the first walk that does not complete. *)
Lemma create_each_stops c responder achClient key remoteIP req rest resp t2 s3 :
  ∀ done s1 done' t1 s2,
  create_each c responder achClient key remoteIP done s1 = (Continue done', t1, s2) →
  create_one c responder achClient key remoteIP req s2 = (Return_ resp, t2, s3) →
  create_each c responder achClient key remoteIP (done ++ req :: rest) s1
    = (Return_ resp, t1 ++ t2, s3).
Proof.
  induction done as [|a done IH]; intros s1 done' t1 s2 Hdone Hreq.
  - simpl in Hdone. unfold ret in Hdone. simplify_eq. simpl.
    by rewrite (bind_Return _ _ _ _ _ _ Hreq).
  - simpl in *. unfold bind in Hdone |- *.
    destruct (create_one c responder achClient key remoteIP a s1)
      as [[[a'|r1] ta] sa]; [|done].
    destruct (create_each c responder achClient key remoteIP done sa)
      as [[[d'|r2] td] sd] eqn:Hd; [|done].
    unfold ret in Hdone. simpl in Hdone. simplify_eq.
    rewrite (IH sa d' td s2 Hd Hreq). simpl. by rewrite app_nil_r, app_assoc.
Qed.

(** C5 (as the code has it).  In a batch, when the requests before request
    [req] complete and [req] fails at some call, the handler returns at
    once with the problem of [req]: the trace ends with the walk of [req],
    nothing is called for the requests after it, and the state is the one
    that walk left, with everything the earlier requests did (ledger posts,
    uploaded files, audit events) still in place.  No transfer is persisted,
    those of the completed requests included: the call that stores them
    comes after the loop and is never reached. *)
Theorem batch_stops_at_first_failure
    c r s responder t0 s0 key s1 done req rest done' t1 s2 resp t2 s3 :
  body r = BodyArray (done ++ req :: rest) →
  NewResponder r s = (Continue responder, t0, s0) →
  (if decide (x_idempotency_key r = "") then quiet base_ID
   else ret (x_idempotency_key r)) s0 = (Continue key, [], s1) →
  create_each c responder (achClientFactory c (XUserID responder)) key (remote_addr r)
    done s1 = (Continue done', t1, s2) →
  create_one c responder (achClientFactory c (XUserID responder)) key (remote_addr r)
    req s2 = (Return_ resp, t2, s3) →
  serve (createUserTransfers c r) s = (resp, t0 ++ t1 ++ t2, s3) ∧
  (∃ err, resp = Problem err) ∧
  (∃ segs, t1 = concat segs ∧ length segs = length done ∧ Forall (completed c) segs) ∧
  in_pipeline_order c t2 ∧ ¬ completed c t2 ∧
  (∀ e, e ∈ t0 ++ t1 ++ t2 → kind e ≠ KCreateUserTransfers).
Proof.
  intros Hbody Hresp Hkey Hdone Hreq.
  pose proof (create_each_spec c responder (achClientFactory c (XUserID responder))
                key (remote_addr r) done s1) as Hspec1.
  rewrite Hdone in Hspec1. destruct Hspec1 as (_ & segs & -> & Hord & _ & Hlen & Hall).
  pose proof (create_one_spec c responder (achClientFactory c (XUserID responder))
                key (remote_addr r) req s2) as Hspec2.
  rewrite Hreq in Hspec2. destruct Hspec2 as (_ & Hord2 & Herr & Hnot).
  split; [|split; [done|split; [eauto|split; [done|split; [done|]]]]].
  - unfold createUserTransfers, serve.
    assert (readTransferRequests (body r) = inl (done ++ req :: rest)) as Hread.
    { rewrite Hbody. unfold readTransferRequests.
      destruct (decide (length (done ++ req :: rest) = 0)) as [Hlen0|_]; [|reflexivity].
      rewrite length_app in Hlen0. simpl in Hlen0. lia. }
    rewrite (bind_Continue _ _ _ _ _ _ Hresp). rewrite Hread.
    rewrite (bind_Continue _ _ _ _ _ _ Hkey).
    rewrite (bind_Return _ _ _ _ _ _
               (create_each_stops _ _ _ _ _ _ rest _ _ _ _ _ _ _ _ Hdone Hreq)).
    done.
  - intros e He.
    apply elem_of_app in He as [He|He].
    { destruct (NewResponder_spec r s) as [(_ & _ & Hrun)|(_ & sx & _ & Hrun)];
        rewrite Hrun in Hresp; simplify_eq.
      case_decide; [by apply elem_of_nil in He|].
      apply list_elem_of_singleton in He. by subst. }
    apply elem_of_app in He as [He|He].
    + apply elem_of_concat in He as (seg & He & Hseg).
      rewrite Forall_forall in Hord.
      by destruct (walk_kinds c seg e (Hord seg Hseg) He) as (_ & ? & _).
    + by destruct (walk_kinds c t2 e Hord2 He) as (_ & ? & _).
Qed.

(** C4 (as the code has it).  A transfer that is not Pending is refused
    before anything is deleted.  For a Pending transfer the local record is
    deleted first; then the file ID is looked up, "no rows" being tolerated;
    when there is a file ID the remote delete is attempted, and whatever
    error it returns, "not found" included, becomes the answer, while the
    local deletion, already made, is not undone; without a file ID no
    remote delete is attempted and the answer is 200. *)
Theorem deleteUserTransfer_order c r s responder t0 s0 transfer w1 :
  NewResponder r s = (Continue responder, t0, s0) →
  repo_getUserTransfer (transferRepo c) (getTransferID r) (XUserID responder) (world s0)
    = (inl transfer, w1) →
  let userID := XUserID responder in
  let transferID := getTransferID r in
  let state w := {| recorder := recorder s0; world := w |} in
  (Status transfer ≠ TransferPending →
   serve (deleteUserTransfer c r) s
     = (Problem ("a " +:+ Status transfer +:+ " transfer can't be deleted"),
        t0 ++ [GetUserTransfer_ transferID userID None], state w1)) ∧
  (∀ w2 fileID lookup_err w3,
     Status transfer = TransferPending →
     repo_deleteUserTransfer (transferRepo c) transferID userID w1 = (None, w2) →
     repo_GetFileIDForTransfer (transferRepo c) transferID userID w2
       = ((fileID, lookup_err), w3) →
     lookup_err = None ∨ lookup_err = Some sql_ErrNoRows →
     (fileID = "" →
      serve (deleteUserTransfer c r) s
        = (StatusOK None,
           t0 ++ [GetUserTransfer_ transferID userID None;
                  DeleteUserTransfer_ transferID userID None;
                  GetFileIDForTransfer_ transferID userID fileID lookup_err],
           state w3)) ∧
     (∀ remote_err w4,
        fileID ≠ "" →
        ACH_DeleteFile (achClientFactory c userID) fileID w3 = (remote_err, w4) →
        serve (deleteUserTransfer c r) s
          = (match remote_err with
             | Some e => Problem e
             | None => StatusOK None
             end,
             t0 ++ [GetUserTransfer_ transferID userID None;
                    DeleteUserTransfer_ transferID userID None;
                    GetFileIDForTransfer_ transferID userID fileID lookup_err;
                    DeleteFile_ fileID remote_err],
             state w4))).
Proof.
  intros Hresp Hget userID transferID state.
  unfold deleteUserTransfer, serve. rewrite (bind_Continue _ _ _ _ _ _ Hresp).
  unfold bind, call, lift, or_problem, respond, ret, userID, transferID, state.
  rewrite Hget. cbn [world recorder fst snd].
  split.
  - intros Hstatus. rewrite decide_True by done. done.
  - intros w2 fileID lookup_err w3 Hstatus Hdel Hfile Hlookup.
    rewrite decide_False by (intros Hne; by apply Hne).
    cbn [world recorder fst snd]. rewrite Hdel. cbn [world recorder fst snd]. rewrite Hfile.
    cbn [world recorder fst snd].
    split.
    + intros ->.
      destruct Hlookup as [-> | ->];
        [|rewrite (decide_False (P := sql_ErrNoRows ≠ sql_ErrNoRows)) by (by intros ?)];
        rewrite (decide_False (P := "" ≠ "")) by (by intros ?); done.
    + intros remote_err w4 Hne Hremote.
      destruct Hlookup as [-> | ->];
        [|rewrite (decide_False (P := sql_ErrNoRows ≠ sql_ErrNoRows)) by (by intros ?)];
        rewrite (decide_True (P := fileID ≠ "")) by done;
        cbn [world recorder fst snd]; rewrite Hremote; by destruct remote_err.
Qed.

End HandlerFacts.

(* ===================================================================== *)
(** * The handlers on the sample deployment                               *)
(* ===================================================================== *)

Section SampleRuns.

Import transfers sample.

Local Existing Instance sim_model.
Local Existing Instance sim_externals.

(** C1, as the design document orders the stages.  One well-formed request
    and a limit checker that allows nothing: the request is rejected by the
    limit check, but only after its receiver, originator and both
    depositories were looked up, so the limit check did not come first. *)
Lemma limit_check_follows_entity_lookups :
  let '(resp, t, _) :=
    serve (createUserTransfers sim_router (post "" (BodyObject (push "alice")))) (fresh 0) in
  resp = Problem "transfer limit exceeded" ∧
  t = [GetUserReceiver_ "alice" "user" None; GetUserDepository_ "alice-dep" "user" None;
       GetUserOriginator_ "orig" "user" None; GetUserDepository_ "orig-dep" "user" None;
       AllowTransfer_ "user" (Some "transfer limit exceeded")] ∧
  ¬ limit_checked_first t.
Proof.
  vm_compute. split; [reflexivity|]. split; [reflexivity|].
  intros Hfirst.
  specialize (Hfirst 0 4 _ _ eq_refl eq_refl).
  assert (4 < 0); [|lia]. apply Hfirst; [|reflexivity]. left.
Qed.

Lemma array_of_one_renders_bare_object_witness :
  ∃ t, (serve (createUserTransfers sim_router (post "k1" (BodyArray [push "alice"])))
          (fresh 5)).1.1 = StatusOK (Some (RenderObject t)).
Proof.
  destruct (array_of_one_renders_bare_object sim_router
              (post "k1" (BodyArray [push "alice"])) (fresh 5) (push "alice")
              (Some (RenderObject
                 (asTransfer (set_ids (set_origin (push "alice") "10.0.0.1" "user")
                                "file-id" "tx-req")
                    "transfer-file-id" 1000))))
    as [t Ht]; [reflexivity|vm_compute; reflexivity|].
  exists t. vm_compute. vm_compute in Ht. by rewrite Ht.
Defined.

(** C4, as the design document states it.  A Pending transfer whose file
    was uploaded is deleted while the ACH service answers 500: the request
    fails with that error, yet the record that could be read before can no
    longer be read afterwards, so the state did not stay unchanged.  And
    when the service answers "not found" the request fails as well. *)
Lemma remote_failure_leaves_record_deleted :
  let s := uploaded ["file-id"] true in
  let '(resp, _, s') := serve (deleteUserTransfer sim_router (delete "transfer-file-id")) s in
  let read w := (repo_getUserTransfer sim_repository "transfer-file-id" "user" w).1 in
  resp = Problem "DeleteFile: 500 Internal Server Error" ∧
  err_of (read (world s)) = None ∧
  err_of (read (world s')) = Some sql_ErrNoRows ∧
  world s' ≠ world s ∧
  (serve (deleteUserTransfer sim_router (delete "transfer-file-id"))
     (uploaded [] false)).1.1 = Problem "DeleteFile: 404 Not Found".
Proof. vm_compute. repeat split; done. Qed.

Lemma deleteUserTransfer_order_witness :
  serve (deleteUserTransfer sim_router (delete "transfer-file-id"))
    (uploaded ["file-id"] true)
  = (Problem "DeleteFile: 500 Internal Server Error",
     [GetUserTransfer_ "transfer-file-id" "user" None;
      DeleteUserTransfer_ "transfer-file-id" "user" None;
      GetFileIDForTransfer_ "transfer-file-id" "user" "file-id" None;
      DeleteFile_ "file-id" (Some "DeleteFile: 500 Internal Server Error")],
     {| recorder := ∅;
        world := {| next_id := 1; clock := 1000; budget := 4; ledger := ["req"];
                    ach_files := ["file-id"]; ach_down := true; audit := ["file-id"];
                    table := [Stored "transfer-file-id" "user" "pending" "file-id" true] |} |}).
Proof.
  pose proof (deleteUserTransfer_order sim_router (delete "transfer-file-id")
                (uploaded ["file-id"] true)
                {| XUserID := "user"; XRequestID := "req" |} []
                (uploaded ["file-id"] true)
                (transfer_of (Stored "transfer-file-id" "user" "pending" "file-id" false))
                (world (uploaded ["file-id"] true)) eq_refl eq_refl) as [_ Hpending].
  destruct (Hpending _ "file-id" None _ eq_refl eq_refl eq_refl (or_introl eq_refl))
    as [_ Hremote].
  exact (Hremote (Some "DeleteFile: 500 Internal Server Error") _
           ltac:(discriminate) eq_refl).
Defined.

(** C5, as stated.  A batch of two with a limit checker that allows one
    transfer: the second request fails at the limit check after the first
    completed.  The first request's ledger post, file and audit event are
    in place, but the transfers table is empty: its transfer was not
    persisted. *)
Lemma completed_request_is_not_persisted :
  let '(resp, t, s') :=
    serve (createUserTransfers sim_router
             (post "" (BodyArray [push "alice"; push "bob"]))) (fresh 1) in
  resp = Problem "transfer limit exceeded" ∧
  CreateFile_ "id" (inl "file-id'") ∈ t ∧
  WriteTransferEvent_ "user" None ∈ t ∧
  ledger (world s') = ["req"] ∧
  ach_files (world s') = ["file-id'"] ∧
  audit (world s') = ["file-id'"] ∧
  table (world s') = [] ∧
  ¬ ∃ row, row ∈ table (world s') ∧ st_file row = "file-id'".
Proof.
  vm_compute. repeat split; try reflexivity.
  - do 9 right. left.
  - do 11 right. left.
  - intros (row & Hrow & _). by apply elem_of_nil in Hrow.
Qed.

Lemma batch_stops_at_first_failure_witness :
  ∃ t1 t2 s3,
    serve (createUserTransfers sim_router
             (post "" (BodyArray [push "alice"; push "bob"; push "carol"]))) (fresh 1)
    = (Problem "transfer limit exceeded", [] ++ t1 ++ t2, s3) ∧
    (∃ err, Problem "transfer limit exceeded" = Problem err) ∧
    (∃ segs, t1 = concat segs ∧ length segs = length [push "alice"] ∧
             Forall (completed sim_router) segs) ∧
    in_pipeline_order sim_router t2 ∧ ¬ completed sim_router t2 ∧
    (∀ e, e ∈ [] ++ t1 ++ t2 → kind e ≠ KCreateUserTransfers).
Proof.
  eexists _, _, _.
  eapply (batch_stops_at_first_failure sim_router
            (post "" (BodyArray [push "alice"; push "bob"; push "carol"])) (fresh 1)
            {| XUserID := "user"; XRequestID := "req" |} [] (fresh 1) "id").
  - reflexivity.
  - reflexivity.
  - reflexivity.
  - vm_compute. reflexivity.
  - vm_compute. reflexivity.
Defined.

Lemma SeenBefore_rejects_duplicate_request_witness :
  serve (createUserTransfers sim_router (post "k1" (BodyObject (push "bob")))) seen_k1
  = (PreconditionFailed, [SeenBefore_ "k1" true], seen_k1).
Proof.
  destruct SeenBefore_rejects_duplicate_request as (_ & _ & _ & Hdup & _).
  apply (Hdup sim_router (post "k1" (BodyObject (push "bob"))) seen_k1).
  - discriminate.
  - simpl. by apply elem_of_singleton.
Defined.

Lemma missingFields_names_every_missing_field_witness :
  ∃ names,
    missingFields incomplete
      = Some ("missing " +:+ strings_Join names ", " +:+ " JSON field(s)") ∧
    (∀ name, name ∈ names ↔ (name, "") ∈ required_fields incomplete) ∧
    (∀ name, (name, "") ∈ required_fields incomplete →
       ∃ pre post, strings_Join names ", " = pre +:+ name +:+ post).
Proof.
  apply (missingFields_names_every_missing_field incomplete).
  exists "transferType". left.
Defined.

Example missingFields_incomplete :
  missingFields incomplete = Some "missing transferType, receiver JSON field(s)".
Proof. reflexivity. Qed.

(** [TestRoute__Idempotency] on the model: the key is new to the recorder,
    the request carrying it is then refused, and the recorder has it. *)
Example TestRoute__Idempotency :
  let '(seen, keys) := route.SeenBefore "key" ∅ in
  let s := {| recorder := keys; world := world (fresh 5) |} in
  seen = false ∧
  (serve (createUserTransfers sim_router (post "key" (BodyObject (push "alice")))) s).1.1
    = PreconditionFailed ∧
  (route.SeenBefore "key" keys).1 = true.
Proof.
  simpl. split; [done|]. split.
  - pose proof (createUserTransfers_spec sim_router
                  (post "key" (BodyObject (push "alice")))
                  {| recorder := {["key"]} ∪ ∅; world := world (fresh 5) |}) as Hspec.
    destruct (serve _ _) as [[resp t] s']. simpl.
    destruct Hspec as [(_ & _ & -> & _)|([Hk|Hk] & _)]; [done|discriminate Hk|].
    exfalso. apply Hk. simpl. set_solver.
  - apply bool_decide_eq_true_2. set_solver.
Qed.

End SampleRuns.

(* ===================================================================== *)
(** * More about the cursor                                               *)
(* ===================================================================== *)

Section CursorMore.

Import microdeposit further.

Context {Amount : Type}.
Variable FromString : string → Amount + error.
Variable order_by : list row → list row.
Context `{!OrderBy order_by}.

Local Abbreviation Next := (microdeposit.Next FromString order_by).
Local Abbreviation scan_all := (microdeposit.scan_all FromString).
Local Abbreviation select_rows := (microdeposit.select_rows order_by).
Local Abbreviation Query := (microdeposit.Query order_by).
Local Abbreviation read_from := (microdeposit.read_from FromString).
Local Abbreviation created_lt := (λ a b : row, (created_at a < created_at b)%Z).

(** What [Next] does to the cursor and where its batch lies, whatever the
    batch size. *)
Lemma Next_bounds r cur batch err cur' :
  Next r cur = ((batch, err), cur') →
  BatchSize cur' = BatchSize cur ∧ (newerThan cur ≤ newerThan cur')%Z ∧
  Forall (λ c, (newerThan cur < CreatedAt c ≤ newerThan cur')%Z) batch.
Proof.
  unfold microdeposit.Next.
  destruct (prepare_fault (db r));
    [intros; simplify_eq; repeat split; [lia|constructor]|].
  destruct (Query r (newerThan cur) (BatchSize cur)) as [[rows rows_Err]|] eqn:Hq;
    [|intros; simplify_eq; repeat split; [lia|constructor]].
  destruct (scan_all (db r) rows (newerThan cur) []) as [[max out]|] eqn:Hscan;
    [|intros; simplify_eq; repeat split; [lia|constructor]].
  intros ?; simplify_eq. simpl.
  apply (scan_all_inl FromString) in Hscan as (cs & -> & Hread & ->). simpl.
  apply (Query_prefix order_by) in Hq as [n ->].
  destruct (foldl_max_ge (created_at <$>
              take n (select_rows (micro_deposits r) (newerThan cur) (BatchSize cur)))
              (newerThan cur)) as [Hle Hge].
  repeat split; [done|].
  apply Forall_forall. intros c Hc.
  apply list_elem_of_lookup in Hc as [i Hi].
  destruct (Forall2_lookup_r _ _ _ _ _ Hread Hi) as (row & Hrow & (_ & _ & _ & _ & Hcr)).
  apply list_elem_of_lookup_2 in Hrow. rewrite Hcr. split.
  - apply elem_of_take in Hrow as (j & Hj & _). apply list_elem_of_lookup_2 in Hj.
    by apply (select_rows_elem order_by) in Hj as [_ (_ & _ & ?)].
  - apply Hge, list_elem_of_fmap. eauto.
Qed.

(** X1.  A call of [Next] never moves the watermark back and never changes
    the batch size, and every credit it returns was created strictly after
    the watermark it started from and not after the one it leaves: this
    for every table, driver fault, engine and batch size, errors
    included. *)
Theorem Next_keeps_batch_between_watermarks r cur :
  let '((batch, _), cur') := Next r cur in
  BatchSize cur' = BatchSize cur ∧ (newerThan cur ≤ newerThan cur')%Z ∧
  Forall (λ c, (newerThan cur < CreatedAt c ≤ newerThan cur')%Z) batch.
Proof.
  destruct (Next r cur) as [[batch err] cur'] eqn:Hnext.
  by apply (Next_bounds r cur batch err cur').
Qed.

(** X2.  However the table changes between calls, and whatever fails in
    between, the batches of successive calls ascend: every credit handed
    out is newer than the watermark the cursor started with, and a credit
    of a later batch is strictly newer than any credit of an earlier one,
    so the cursor never hands out the same row twice. *)
Theorem Next_each_never_repeats rs : ∀ cur,
  let '(batches, cur') := Next_each FromString order_by rs cur in
  (newerThan cur ≤ newerThan cur')%Z ∧
  Forall (Forall (λ c, (newerThan cur < CreatedAt c ≤ newerThan cur')%Z)) batches ∧
  ∀ i j bi bj ci cj,
    i < j → batches !! i = Some bi → batches !! j = Some bj →
    ci ∈ bi → cj ∈ bj → (CreatedAt ci < CreatedAt cj)%Z.
Proof.
  induction rs as [|r rs IH]; intros cur; simpl.
  - repeat split; [lia|constructor|]. intros i j ? ? ? ? _ Hi. done.
  - destruct (Next r cur) as [[batch err] cur1] eqn:Hnext.
    specialize (IH cur1).
    destruct (Next_each FromString order_by rs cur1) as [rest cur2].
    destruct (Next_bounds r cur batch err cur1 Hnext) as (_ & Hle & Hbatch).
    destruct IH as (Hle' & Hrest & Hasc).
    split; [lia|]. split.
    + constructor.
      * eapply Forall_impl; [exact Hbatch|]. intros c ?. simpl in *. lia.
      * eapply Forall_impl; [exact Hrest|]. intros b Hbf.
        eapply Forall_impl; [exact Hbf|]. intros c ?. simpl in *. lia.
    + intros i j bi bj ci cj Hij Hi Hj Hci Hcj.
      destruct j as [|j]; [lia|]. simpl in Hj.
      destruct i as [|i]; simpl in Hi.
      * simplify_eq. rewrite Forall_forall in Hbatch. pose proof (Hbatch ci Hci).
        rewrite Forall_forall in Hrest.
        pose proof (Hrest bj (list_elem_of_lookup_2 _ _ _ Hj)) as Hbj.
        rewrite Forall_forall in Hbj. pose proof (Hbj cj Hcj). simpl in *. lia.
      * apply (Hasc i j bi bj); [lia|done..].
Qed.

(** X4.  When [Next] returns an error, either it returns no batch and
    leaves the cursor where it was (the statement, the query, a scan or an
    amount failed), or the error is the iteration's own [rows.Err()],
    returned as it is together with the credits of the rows read before
    it, past which the watermark has moved. *)
Theorem Next_error_with_or_without_batch r cur batch e cur' :
  Next r cur = ((batch, Some e), cur') →
  (batch = [] ∧ cur' = cur) ∨
  (∃ n, rows_fault (db r) = Some (n, e) ∧
        Forall2 read_from
          (take n (select_rows (micro_deposits r) (newerThan cur) (BatchSize cur)))
          batch ∧
        Forall (λ c, (CreatedAt c ≤ newerThan cur')%Z) batch).
Proof.
  intros Hnext. pose proof (Next_bounds r cur batch (Some e) cur' Hnext) as (_ & _ & Hb).
  revert Hnext. unfold microdeposit.Next.
  destruct (prepare_fault (db r)); [intros; simplify_eq; by left|].
  unfold microdeposit.Query.
  destruct (query_fault (db r)); [intros; simplify_eq; by left|].
  destruct (rows_fault (db r)) as [[n e']|] eqn:Hf.
  - destruct (scan_all _ _ _ _) as [[max out]|] eqn:Hscan;
      [|intros; simplify_eq; by left].
    intros ?; simplify_eq. right. exists n. split; [done|].
    apply (scan_all_inl FromString) in Hscan as (cs & -> & Hread & _). simpl in *.
    split; [done|]. eapply Forall_impl; [exact Hb|]. intros c ?. simpl in *. lia.
  - destruct (scan_all _ _ _ _) as [[max out]|] eqn:Hscan;
      intros; simplify_eq; by left.
Qed.

Lemma filter_all {A} (P : A → Prop) `{∀ x, Decision (P x)} (l : list A) :
  Forall P l → filter P l = l.
Proof.
  induction 1 as [|x l Hx Hl IH]; [done|].
  by rewrite filter_cons, decide_True, IH.
Qed.

(** In a strictly ascending list, what lies above the largest instant of
    the first [b] rows is the rest of the list. *)
Lemma rows_above_batch (s : list row) : ∀ b w,
  StronglySorted created_lt s → Forall (λ r, (w < created_at r)%Z) s →
  filter (λ r, (foldl Z.max w (created_at <$> take b s) < created_at r)%Z) s
  = drop b s.
Proof.
  induction s as [|x s IH]; intros b w Hs Hw; [by destruct b|].
  destruct b as [|b]; [by apply filter_all|].
  apply StronglySorted_inv in Hs as [Hs Hx].
  apply Forall_cons in Hw as [Hwx Hw].
  cbn [take drop]. rewrite fmap_cons. cbn [foldl].
  replace (Z.max w (created_at x)) with (created_at x) by lia.
  rewrite filter_cons, decide_False.
  - exact (IH b (created_at x) Hs Hx).
  - destruct (foldl_max_ge (created_at <$> take b s) (created_at x)). lia.
Qed.

Lemma Sorted_drop_created n (l : list row) :
  Sorted created_lt l → Sorted created_lt (drop n l).
Proof.
  revert l. induction n as [|n IH]; intros l Hl; [done|].
  destruct l as [|x l]; [done|]. apply Sorted_inv in Hl as [Hl _]. by apply IH.
Qed.

(** X3.  When no two selected rows share a creation instant, the driver
    is healthy, the amounts parse and the batch size is positive, enough
    calls of [Next] return every selected credit exactly once, oldest
    first: the batches put end to end are the credits of the selected rows
    in ascending order. *)
Theorem drain_returns_all_when_instants_differ n tbl cur s cs :
  (0 < BatchSize cur)%Z →
  filter (selected (newerThan cur)) tbl ≡ₚ s →
  Sorted created_lt s →
  Forall2 read_from s cs →
  length s ≤ n * Z.to_nat (BatchSize cur) →
  concat (microdeposit.drain FromString order_by n (Repo tbl healthy) cur).1 = cs.
Proof.
  revert tbl cur s cs.
  induction n as [|n IH]; intros tbl cur s cs Hsize Hp Hs Hread Hlen.
  - destruct s; [|simpl in Hlen; lia]. by apply Forall2_nil_inv_l in Hread as ->.
  - set (b := Z.to_nat (BatchSize cur)) in *.
    cbn [microdeposit.drain].
    rewrite (Next_healthy_strict FromString order_by tbl cur s (take b cs) Hp Hs)
      by (by apply Forall2_take).
    fold b.
    set (cur1 := MkCursor (BatchSize cur)
                   (foldl Z.max (newerThan cur) (created_at <$> take b s))).
    assert (Forall (λ r, (newerThan cur < created_at r)%Z) s) as Habove.
    { apply Forall_forall. intros r Hr. rewrite <- Hp in Hr.
      by apply list_elem_of_filter in Hr as [(_ & _ & ?) _]. }
    assert (StronglySorted created_lt s) as Hss.
    { apply Sorted_StronglySorted; [|done]. intros x y z. lia. }
    specialize (IH tbl cur1 (drop b s) (drop b cs)).
    destruct (microdeposit.drain FromString order_by n (Repo tbl healthy) cur1)
      as [rest cur2]. simpl in *.
    rewrite IH; [by rewrite take_drop|done| |by apply Sorted_drop_created
                |by apply Forall2_drop|rewrite length_drop; lia].
    destruct (foldl_max_ge (created_at <$> take b s) (newerThan cur)) as [Hle _].
    rewrite (selected_later tbl (newerThan cur)) by done.
    rewrite Hp. by rewrite rows_above_batch.
Qed.

End CursorMore.

(* ===================================================================== *)
(** * More about the transfer handlers                                    *)
(* ===================================================================== *)

Section RequestMore.

Import transfers further.

Context `{Model}.

(** X5.  [missingFields] lets a request pass exactly when none of its six
    required fields is empty; amount, description, same-day flag and
    details play no part. *)
Theorem missingFields_passes_iff_complete (r : transferRequest) :
  missingFields r = None ↔ ∀ name v, (name, v) ∈ required_fields r → v ≠ "".
Proof.
  unfold missingFields. rewrite missing_of_required. split.
  - case_decide as Hlen; [done|]. intros _ name v Hin ->.
    assert ((name, "") ∈ filter (λ p : string * string, p.2 = "") (required_fields r))
      as Hf by (by apply list_elem_of_filter).
    destruct (filter _ _) as [|p l]; [by apply elem_of_nil in Hf|].
    rewrite length_fmap in Hlen. simpl in Hlen. lia.
  - intros Hall. case_decide as Hlen; [|done]. exfalso.
    destruct (filter _ _) as [|[name v] l] eqn:Hf;
      [rewrite length_fmap in Hlen; simpl in Hlen; lia|].
    assert ((name, v) ∈ filter (λ p : string * string, p.2 = "") (required_fields r))
      as Hin by (rewrite Hf; left).
    apply list_elem_of_filter in Hin as [Hv Hin]. by apply (Hall name v).
Qed.

(** X6.  [asTransfer] copies at most one detail, the one the class code
    names, and none for any other class code, whatever details the request
    carried. *)
Theorem asTransfer_copies_the_detail_of_the_code (r : transferRequest) transferID now :
  let t := asTransfer r transferID now in
  let code := req_StandardEntryClassCode r in
  present (CCDDetail_ t) + present (IATDetail_ t)
    + present (TELDetail_ t) + present (WEBDetail_ t) ≤ 1 ∧
  (∀ d, CCDDetail_ t = Some d → code = "CCD" ∧ req_CCDDetail r = Some d) ∧
  (∀ d, IATDetail_ t = Some d → code = "IAT" ∧ req_IATDetail r = Some d) ∧
  (∀ d, TELDetail_ t = Some d → code = "TEL" ∧ req_TELDetail r = Some d) ∧
  (∀ d, WEBDetail_ t = Some d → code = "WEB" ∧ req_WEBDetail r = Some d) ∧
  (code = "CCD" → CCDDetail_ t = req_CCDDetail r) ∧
  (code = "IAT" → IATDetail_ t = req_IATDetail r) ∧
  (code = "TEL" → TELDetail_ t = req_TELDetail r) ∧
  (code = "WEB" → WEBDetail_ t = req_WEBDetail r).
Proof.
  unfold asTransfer, present, ach_CCD, ach_IAT, ach_TEL, ach_WEB. simpl.
  repeat case_decide; try congruence;
    repeat split; try done; try (intros; congruence);
    repeat case_match; lia.
Qed.

End RequestMore.

Section HandlerMore.

Import transfers further.

Context `{Externals}.

Ltac run_step :=
  match goal with
  | |- context [match ?x with _ => _ end] =>
      lazymatch x with
      | context [match _ with _ => _ end] => fail
      | _ => destruct x eqn:?; simpl
      end
  end.

Ltac run_handler :=
  unfold create_one, getTransferObjects, none_but, bind, call, quiet, lift,
    or_problem, respond, ret;
  repeat run_step.

Ltac in_trace := repeat first [apply list_elem_of_here | apply list_elem_of_further].

(** X8.  [getTransferObjects] looks the four entities up in a fixed order,
    each under the IDs of the request and for the user it was given, and
    stops at the first lookup that fails; when it returns no error all four
    lookups were made and succeeded. *)
Theorem getTransferObjects_stops_at_first_failure req userID depRepo recvRepo origRepo w :
  let '(objects, t, _) := getTransferObjects req userID depRepo recvRepo origRepo w in
  ∃ e1 e2 e3 e4,
    t `prefix_of` [GetUserReceiver_ (req_Receiver req) userID e1;
                   GetUserDepository_ (req_ReceiverDepository req) userID e2;
                   GetUserOriginator_ (req_Originator req) userID e3;
                   GetUserDepository_ (req_OriginatorDepository req) userID e4] ∧
    t ≠ [] ∧
    Forall succeeded (take (pred (length t)) t) ∧
    (objects.2 = None → length t = 4 ∧ Forall succeeded t).
Proof.
  unfold getTransferObjects, none_but. repeat run_step;
    eexists _, _, _, _;
    (split; [eexists; reflexivity|]); (split; [done|]);
    (split; [repeat constructor|]);
    first [ by intros ? | intros _; split; [reflexivity|repeat constructor] ].
  Unshelve. all: exact None.
Qed.

(** One turn of the loop that hands its request on leaves it as it came but
    for the four fields the handler sets: the caller's address and user,
    the ID of the file that was uploaded and checked, and the ledger's
    transaction ID, which is empty when no ledger is configured.  Only a
    request with all required fields gets that far. *)
Lemma create_one_stamps c responder achClient key remoteIP req s :
  match create_one c responder achClient key remoteIP req s with
  | (Continue req', t, _) =>
      req' = set_ids (set_origin req remoteIP (XUserID responder))
               (req_fileID req') (req_transactionID req') ∧
      missingFields req = None ∧
      CreateFile_ key (inl (req_fileID req')) ∈ t ∧
      CheckFile_ (req_fileID req') (XUserID responder) None ∈ t ∧
      match accountsClient c with
      | Some _ => True
      | None => req_transactionID req' = ""
      end
  | (Return_ _, _, _) => True
  end.
Proof.
  unfold create_one.
  destruct (accountsClient c), (customersClient c);
    run_handler; try exact I;
    (split; [reflexivity|]); (split; [reflexivity|]);
    (split; [in_trace|]); (split; [in_trace|]); done.
Qed.

(** Every call of one turn of the loop is made for the responder's user, and
    the file is constructed and uploaded under the key the turn was given. *)
Lemma create_one_scoped c responder achClient key remoteIP req s :
  Forall (λ e, (∀ u, user_of e = Some u → u = XUserID responder) ∧
               (∀ k, upload_key_of e = Some k → k = key))
    (create_one c responder achClient key remoteIP req s).1.2.
Proof.
  unfold create_one.
  destruct (accountsClient c), (customersClient c);
    run_handler;
    repeat (apply Forall_cons_2; [split; simpl; intros; by simplify_eq|]);
    apply Forall_nil_2.
Qed.

Lemma create_each_scoped c responder achClient key remoteIP requests : ∀ s,
  Forall (λ e, (∀ u, user_of e = Some u → u = XUserID responder) ∧
               (∀ k, upload_key_of e = Some k → k = key))
    (create_each c responder achClient key remoteIP requests s).1.2.
Proof.
  induction requests as [|req rest IH]; intros s; [by constructor|].
  cbn [create_each]. unfold bind, ret.
  pose proof (create_one_scoped c responder achClient key remoteIP req s) as H1.
  destruct (create_one c responder achClient key remoteIP req s) as [[[req'|resp] t1] s1];
    [|done].
  specialize (IH s1).
  destruct (create_each c responder achClient key remoteIP rest s1)
    as [[[rest'|resp] t2] s2]; simpl in *; rewrite ?app_nil_r;
    by apply Forall_app_2.
Qed.

(** The loop keeps the requests in order and one for one, and stamps each
    as one turn does. *)
Lemma create_each_stamps c responder achClient key remoteIP requests : ∀ s,
  match create_each c responder achClient key remoteIP requests s with
  | (Continue requests', t, _) =>
      Forall2 (λ req req',
        req' = set_ids (set_origin req remoteIP (XUserID responder))
                 (req_fileID req') (req_transactionID req') ∧
        missingFields req = None ∧
        CreateFile_ key (inl (req_fileID req')) ∈ t ∧
        CheckFile_ (req_fileID req') (XUserID responder) None ∈ t ∧
        match accountsClient c with
        | Some _ => True
        | None => req_transactionID req' = ""
        end) requests requests'
  | (Return_ _, _, _) => True
  end.
Proof.
  induction requests as [|req rest IH]; intros s; [by constructor|].
  cbn [create_each]. unfold bind, ret.
  pose proof (create_one_stamps c responder achClient key remoteIP req s) as H1.
  destruct (create_one c responder achClient key remoteIP req s) as [[[req'|resp] t1] s1];
    [|done].
  specialize (IH s1).
  destruct (create_each c responder achClient key remoteIP rest s1)
    as [[[rest'|resp] t2] s2]; [|done].
  simpl. rewrite app_nil_r.
  destruct H1 as (Hreq & Hmiss & Hfile & Hcheck & Htx).
  constructor.
  - repeat split; [done|done| | |done]; apply elem_of_app; by left.
  - eapply Forall2_impl; [exact IH|]. simpl.
    intros x y (? & ? & ? & ? & ?).
    repeat split; [done|done| | |done]; apply elem_of_app; by right.
Qed.

(** X9.  When the loop of [createUserTransfers] runs to its end, the
    requests it leaves for the repository are those of the body, in order
    and one for one, each complete in its required fields and changed only
    in what the handler stamps on it: the caller's address, the user, the
    ID of a file that was uploaded and then checked during the loop, and
    the transaction ID, empty when no ledger is configured. *)
Theorem create_each_stamps_requests c responder achClient key remoteIP requests : ∀ s,
  match create_each c responder achClient key remoteIP requests s with
  | (Continue requests', t, _) =>
      Forall2 (λ req req',
        req' = set_ids (set_origin req remoteIP (XUserID responder))
                 (req_fileID req') (req_transactionID req') ∧
        missingFields req = None ∧
        CreateFile_ key (inl (req_fileID req')) ∈ t ∧
        CheckFile_ (req_fileID req') (XUserID responder) None ∈ t ∧
        match accountsClient c with
        | Some _ => True
        | None => req_transactionID req' = ""
        end) requests requests'
  | (Return_ _, _, _) => True
  end.
Proof. apply create_each_stamps. Qed.

(** The handler as one run: the responder, the body, the key for the upload,
    the loop, and the one call of the repository, whose result is the
    answer. *)
Lemma createUserTransfers_run c r s :
  serve (createUserTransfers c r) s
    = (PreconditionFailed, [SeenBefore_ (x_idempotency_key r) true], s)
  ∨ ∃ s1, world s1 = world s ∧
      match readTransferRequests (body r) with
      | inr err =>
          serve (createUserTransfers c r) s
            = (Problem err,
               (if decide (x_idempotency_key r = "") then []
                else [SeenBefore_ (x_idempotency_key r) false]), s1)
      | inl requests =>
          ∃ key s2, (x_idempotency_key r ≠ "" → key = x_idempotency_key r) ∧
            match create_each c {| XUserID := x_user_id r; XRequestID := x_request_id r |}
                    (achClientFactory c (x_user_id r)) key (remote_addr r) requests s2 with
            | (Return_ resp, tl, s3) =>
                serve (createUserTransfers c r) s
                  = (resp,
                     (if decide (x_idempotency_key r = "") then []
                      else [SeenBefore_ (x_idempotency_key r) false]) ++ tl, s3)
            | (Continue requests', tl, s3) =>
                let '(out, w) := repo_createUserTransfers (transferRepo c) (x_user_id r)
                                   requests' (world s3) in
                serve (createUserTransfers c r) s
                  = (match out with
                     | inl transfers => writeResponse (length requests') transfers
                     | inr err => Problem err
                     end,
                     (if decide (x_idempotency_key r = "") then []
                      else [SeenBefore_ (x_idempotency_key r) false])
                     ++ tl ++ [CreateUserTransfers_ (x_user_id r) (length requests')
                                 (err_of out)],
                     {| recorder := recorder s3; world := w |})
            end
      end.
Proof.
  unfold createUserTransfers, serve.
  destruct (NewResponder_spec r s) as [(Hne & Hin & Hrun)|(Hfresh & s1 & Hw & Hrun)].
  { rewrite (bind_Return _ _ _ _ _ _ Hrun). by left. }
  right. exists s1. split; [done|].
  rewrite (bind_Continue _ _ _ _ _ _ Hrun).
  set (idem := if decide (x_idempotency_key r = "") then [] else _).
  destruct (readTransferRequests (body r)) as [requests|err] eqn:Hread.
  2: { unfold respond. simpl. by rewrite app_nil_r. }
  assert (∃ key s2, (x_idempotency_key r ≠ "" → key = x_idempotency_key r) ∧
    (if decide (x_idempotency_key r = "") then quiet base_ID
     else ret (x_idempotency_key r)) s1 = (Continue key, [], s2)) as (key & s2 & Hhdr & Hkey).
  { case_decide; unfold quiet, lift, ret; [|by eauto].
    destruct (base_ID (world s1)); eexists _, _; (split; [|reflexivity]); done. }
  exists key, s2. split; [done|].
  rewrite (bind_Continue _ _ _ _ _ _ Hkey). simpl.
  destruct (create_each c {| XUserID := x_user_id r; XRequestID := x_request_id r |}
                (achClientFactory c (x_user_id r)) key (remote_addr r) requests s2)
    as [[[requests'|resp] tl] s3] eqn:Hrun_each.
  - rewrite (bind_Continue _ _ _ _ _ _ Hrun_each).
    unfold bind, call, lift, respond.
    destruct (repo_createUserTransfers (transferRepo c) (x_user_id r) requests' (world s3))
      as [[transfers|err] w]; simpl; by rewrite ?app_nil_r.
  - by rewrite (bind_Return _ _ _ _ _ _ Hrun_each).
Qed.

(** X7.  [readTransferRequests] never hands the handler an empty list, and
    the loop keeps the requests one for one and lets none through that
    lacks a required field: so whenever [createUserTransfers] calls the
    repository to store transfers, it does so for all requests of the
    body, at least one, each with every required field. *)
Theorem createUserTransfers_stores_whole_nonempty_body c r s :
  let '(_, t, _) := serve (createUserTransfers c r) s in
  ∀ u n err, CreateUserTransfers_ u n err ∈ t →
    0 < n ∧
    ∃ requests, readTransferRequests (body r) = inl requests ∧
                n = length requests ∧
                Forall (λ req, missingFields req = None) requests.
Proof.
  destruct (createUserTransfers_run c r s) as [->|(s1 & _ & Hrun)].
  { intros u n err Hin. apply list_elem_of_singleton in Hin. discriminate Hin. }
  assert (∀ u n err, CreateUserTransfers_ u n err
            ∉ (if decide (x_idempotency_key r = "") then []
               else [SeenBefore_ (x_idempotency_key r) false])) as Hidem.
  { intros u n err Hin. case_decide; [by apply elem_of_nil in Hin|].
    apply list_elem_of_singleton in Hin. discriminate Hin. }
  destruct (readTransferRequests (body r)) as [requests|e] eqn:Hread.
  2: { rewrite Hrun. intros u n err Hin. by apply Hidem in Hin. }
  destruct Hrun as (key & s2 & _ & Hrun).
  pose proof (create_each_spec c {| XUserID := x_user_id r; XRequestID := x_request_id r |}
                (achClientFactory c (x_user_id r)) key (remote_addr r) requests s2) as Hsp.
  pose proof (create_each_stamps c {| XUserID := x_user_id r; XRequestID := x_request_id r |}
                (achClientFactory c (x_user_id r)) key (remote_addr r) requests s2) as Hst.
  assert (∀ segs u n err, Forall (in_pipeline_order c) segs →
            CreateUserTransfers_ u n err ∉ concat segs) as Hwalks.
  { intros segs u n err Hord Hin. apply elem_of_concat in Hin as (seg & Hin & Hseg).
    rewrite Forall_forall in Hord.
    by destruct (walk_kinds c seg _ (Hord seg Hseg) Hin) as (_ & ? & _). }
  destruct (create_each _ _ _ _ _ _ _) as [[[requests'|resp] tl] s3].
  - destruct (repo_createUserTransfers _ _ _ _) as [out w]. rewrite Hrun.
    destruct Hsp as (_ & segs & -> & Hord & _).
    intros u n err Hin.
    apply elem_of_app in Hin as [Hin|Hin]; [by apply Hidem in Hin|].
    apply elem_of_app in Hin as [Hin|Hin]; [by apply Hwalks in Hin|].
    apply list_elem_of_singleton in Hin. simplify_eq.
    rewrite <- (Forall2_length _ _ _ Hst).
    split.
    + unfold readTransferRequests in Hread.
      destruct (body r); repeat case_match; simplify_eq; simpl; lia.
    + exists requests. repeat split.
      apply Forall_forall. intros req [i Hi]%list_elem_of_lookup.
      by destruct (Forall2_lookup_l _ _ _ i req Hst Hi) as (req' & _ & _ & ? & _).
  - rewrite Hrun. destruct Hsp as (_ & segs & -> & Hord & _).
    intros u n err Hin.
    apply elem_of_app in Hin as [Hin|Hin]; [by apply Hidem in Hin|].
    by apply Hwalks in Hin.
Qed.

(** X10.  Whatever the body says, every repository, limit, ledger, customer,
    file-check and audit call that [createUserTransfers] makes is made for
    the user of the request's X-User-ID header. *)
Theorem createUserTransfers_acts_for_its_user_only c r s :
  let '(_, t, _) := serve (createUserTransfers c r) s in
  Forall (λ e, ∀ u, user_of e = Some u → u = x_user_id r) t.
Proof.
  destruct (createUserTransfers_run c r s) as [->|(s1 & _ & Hrun)].
  { by repeat constructor. }
  assert (Forall (λ e, ∀ u, user_of e = Some u → u = x_user_id r)
            (if decide (x_idempotency_key r = "") then []
             else [SeenBefore_ (x_idempotency_key r) false])) as Hidem.
  { case_decide; by repeat constructor. }
  destruct (readTransferRequests (body r)) as [requests|err]; [|by rewrite Hrun].
  destruct Hrun as (key & s2 & _ & Hrun).
  pose proof (create_each_scoped c {| XUserID := x_user_id r; XRequestID := x_request_id r |}
                (achClientFactory c (x_user_id r)) key (remote_addr r) requests s2) as Htl.
  destruct (create_each _ _ _ _ _ _ _) as [[[requests'|resp] tl] s3]; simpl in Htl.
  - destruct (repo_createUserTransfers _ _ _ _) as [out w]. rewrite Hrun.
    apply Forall_app_2; [done|]. apply Forall_app_2.
    + eapply Forall_impl; [exact Htl|]. by intros e [? _].
    + repeat constructor. simpl. intros; by simplify_eq.
  - rewrite Hrun. apply Forall_app_2; [done|].
    eapply Forall_impl; [exact Htl|]. by intros e [? _].
Qed.

(** X11.  All files one call of [createUserTransfers] constructs and
    uploads, for every request of a batch, go under one and the same
    idempotency key: the key of the request's header when it has one. *)
Theorem createUserTransfers_uploads_under_one_key c r s :
  let '(_, t, _) := serve (createUserTransfers c r) s in
  ∃ key, (x_idempotency_key r ≠ "" → key = x_idempotency_key r) ∧
    Forall (λ e, ∀ k, upload_key_of e = Some k → k = key) t.
Proof.
  destruct (createUserTransfers_run c r s) as [->|(s1 & _ & Hrun)].
  { exists (x_idempotency_key r). split; [done|]. by repeat constructor. }
  assert (∀ key, Forall (λ e, ∀ k, upload_key_of e = Some k → k = key)
            (if decide (x_idempotency_key r = "") then []
             else [SeenBefore_ (x_idempotency_key r) false])) as Hidem.
  { intros key. case_decide; by repeat constructor. }
  destruct (readTransferRequests (body r)) as [requests|err].
  2: { rewrite Hrun. exists (x_idempotency_key r). split; [done|]. apply Hidem. }
  destruct Hrun as (key & s2 & Hhdr & Hrun).
  pose proof (create_each_scoped c {| XUserID := x_user_id r; XRequestID := x_request_id r |}
                (achClientFactory c (x_user_id r)) key (remote_addr r) requests s2) as Htl.
  destruct (create_each _ _ _ _ _ _ _) as [[[requests'|resp] tl] s3]; simpl in Htl.
  - destruct (repo_createUserTransfers _ _ _ _) as [out w]. rewrite Hrun.
    exists key. split; [done|].
    apply Forall_app_2; [done|]. apply Forall_app_2.
    + eapply Forall_impl; [exact Htl|]. by intros e [_ ?].
    + by repeat constructor.
  - rewrite Hrun. exists key. split; [done|]. apply Forall_app_2; [done|].
    eapply Forall_impl; [exact Htl|]. by intros e [_ ?].
Qed.


(** X14.  A body that cannot be read, is not a request or an array of
    requests, lacks a required field, or is an empty array is answered with
    that error before any collaborator is called: the trace holds at most
    the idempotency check and the world is left as it was. *)
Theorem createUserTransfers_rejects_bad_body_untouched c r s err :
  readTransferRequests (body r) = inr err →
  let '(resp, t, s') := serve (createUserTransfers c r) s in
  (resp = Problem err ∨ resp = PreconditionFailed) ∧
  Forall (λ e, kind e = KSeenBefore) t ∧
  world s' = world s.
Proof.
  intros Hread.
  destruct (createUserTransfers_run c r s) as [->|(s1 & Hw & Hrun)].
  { split; [by right|]. split; [by repeat constructor|done]. }
  rewrite Hread in Hrun. rewrite Hrun.
  split; [by left|]. split; [|done]. case_decide; by repeat constructor.
Qed.

Ltac in_trace_solve :=
  solve [repeat first [apply list_elem_of_here | apply list_elem_of_further]].

Ltac split_trace :=
  repeat match goal with
  | H : _ ∈ _ :: _ |- _ => apply elem_of_cons in H as [H|H]
  | H : _ ∈ [] |- _ => by apply elem_of_nil in H
  end.

(** X13.  Whatever the repository and the ACH service answer,
    [deleteUserTransfer] acts for the user of the X-User-ID header only;
    deletes the local record only after it has read the transfer; asks the
    ACH service to delete a file only when the local record was deleted
    without error and the lookup of the file ID gave that, non-empty, ID
    with no error or with "no rows"; and answers 200, with no body, only
    when the local delete succeeded and no remote delete failed. *)
Theorem deleteUserTransfer_remote_delete_follows_local c r s :
  let '(resp, t, _) := serve (deleteUserTransfer c r) s in
  Forall (λ e, ∀ u, user_of e = Some u → u = x_user_id r) t ∧
  (∀ e, e ∈ t → kind e = KDeleteUserTransfer →
     GetUserTransfer_ (getTransferID r) (x_user_id r) None ∈ t) ∧
  (∀ fileID err, DeleteFile_ fileID err ∈ t →
     fileID ≠ "" ∧
     DeleteUserTransfer_ (getTransferID r) (x_user_id r) None ∈ t ∧
     (GetFileIDForTransfer_ (getTransferID r) (x_user_id r) fileID None ∈ t ∨
      GetFileIDForTransfer_ (getTransferID r) (x_user_id r) fileID
        (Some sql_ErrNoRows) ∈ t)) ∧
  (∀ rendered, resp = StatusOK rendered →
     rendered = None ∧
     DeleteUserTransfer_ (getTransferID r) (x_user_id r) None ∈ t ∧
     ∀ fileID err, DeleteFile_ fileID err ∈ t → err = None).
Proof.
  unfold deleteUserTransfer, serve, NewResponder, route.SeenBefore.
  run_handler;
    repeat match goal with
    | Hd : decide _ = _ |- _ => clear Hd
    | n : ¬ (?a ≠ ?b) |- _ =>
        assert (a = b) by (destruct (decide (a = b)); [done|by destruct n]);
        clear n; try subst
    end;
    (split; [repeat (apply Forall_cons_2; [simpl; intros; by simplify_eq|]);
             apply Forall_nil_2|]);
    (split; [intros ev Hev Hk; split_trace; subst ev; try discriminate Hk;
             in_trace_solve|]);
    (split; [intros file ferr Hev; split_trace; simplify_eq;
             (split; [done|]); (split; [in_trace_solve|]);
             first [left; in_trace_solve | right; in_trace_solve]|]);
    intros rendered Hresp; simplify_eq;
    (split; [done|]); (split; [in_trace_solve|]);
    intros file ferr Hev; split_trace; by simplify_eq.
Qed.

End HandlerMore.

(* ===================================================================== *)
(** * Further sample runs                                                 *)
(* ===================================================================== *)

Section FurtherRuns.

Import microdeposit transfers sample further.

Local Existing Instance sim_model.
Local Existing Instance sim_externals.

Lemma Next_keeps_batch_between_watermarks_witness :
  let '((batch, _), cur') :=
    Next parse_amount sort_by_created_at (Repo three_pending breaks_after_one)
      (GetCursor 0 2) in
  BatchSize cur' = BatchSize (GetCursor 0 2) ∧
  (newerThan (GetCursor 0 2) ≤ newerThan cur')%Z ∧
  Forall (λ c, (newerThan (GetCursor 0 2) < CreatedAt c ≤ newerThan cur')%Z) batch.
Proof.
  apply (Next_keeps_batch_between_watermarks parse_amount sort_by_created_at
           (Repo three_pending breaks_after_one) (GetCursor 0 2)).
Defined.

Lemma Next_each_never_repeats_witness :
  let '(batches, cur') :=
    Next_each parse_amount sort_by_created_at
      [Repo three_pending breaks_after_one; Repo one_malformed healthy;
       Repo three_pending healthy] (GetCursor 0 2) in
  (newerThan (GetCursor 0 2) ≤ newerThan cur')%Z ∧
  Forall (Forall (λ c, (newerThan (GetCursor 0 2) < CreatedAt c ≤ newerThan cur')%Z))
    batches ∧
  ∀ i j bi bj ci cj,
    i < j → batches !! i = Some bi → batches !! j = Some bj →
    ci ∈ bi → cj ∈ bj → (CreatedAt ci < CreatedAt cj)%Z.
Proof.
  apply (Next_each_never_repeats parse_amount sort_by_created_at
           [Repo three_pending breaks_after_one; Repo one_malformed healthy;
            Repo three_pending healthy] (GetCursor 0 2)).
Defined.

Lemma drain_returns_all_when_instants_differ_witness :
  concat (drain parse_amount sort_by_created_at 2 (Repo three_pending healthy)
            (GetCursor 0 2)).1
  = [credit "d1" 10; credit "d2" 20; credit "d3" 30].
Proof.
  apply (drain_returns_all_when_instants_differ parse_amount sort_by_created_at 2
           three_pending (GetCursor 0 2)
           [credit_row "d1" 10; credit_row "d2" 20; credit_row "d3" 30]).
  - simpl. lia.
  - change (filter (selected (newerThan (GetCursor 0 2))) three_pending)
      with [credit_row "d3" 30; credit_row "d1" 10; credit_row "d2" 20].
    apply (Permutation_cons_append [credit_row "d1" 10; credit_row "d2" 20]).
  - repeat (constructor; try (simpl; lia)).
  - repeat (constructor; [by repeat split|]). constructor.
  - simpl. lia.
Defined.

Lemma Next_error_with_or_without_batch_witness :
  ([credit "d1" 10] = [] ∧ MkCursor 2 10 = GetCursor 0 2) ∨
  (∃ n, rows_fault breaks_after_one = Some (n, "driver: bad connection") ∧
        Forall2 (read_from parse_amount)
          (take n (select_rows sort_by_created_at three_pending 0 2))
          [credit "d1" 10] ∧
        Forall (λ c, (CreatedAt c ≤ 10)%Z) [credit "d1" 10]).
Proof.
  apply (Next_error_with_or_without_batch parse_amount sort_by_created_at
           (Repo three_pending breaks_after_one) (GetCursor 0 2)
           [credit "d1" 10] "driver: bad connection" (MkCursor 2 10)).
  vm_compute. reflexivity.
Defined.

Lemma createUserTransfers_rejects_bad_body_untouched_witness :
  let '(resp, t, s') :=
    serve (createUserTransfers sim_router (post "k2" (BodyObject incomplete))) (fresh 1) in
  (resp = Problem "missing transferType, receiver JSON field(s)"
   ∨ resp = PreconditionFailed) ∧
  Forall (λ e, kind e = KSeenBefore) t ∧
  world s' = world (fresh 1).
Proof.
  apply (createUserTransfers_rejects_bad_body_untouched sim_router
           (post "k2" (BodyObject incomplete)) (fresh 1)
           "missing transferType, receiver JSON field(s)").
  reflexivity.
Defined.

End FurtherRuns.
